(** * tools/download_osm.py: filename sanitizer, bounding box, download driver

    A shallow embedding of the three pieces of behaviour in
    [tools/download_osm.py]:

    - [sanitize_filename], a chain of [str.strip] and [re.sub] calls over
      Python strings (sequences of Unicode code points);
    - [calculate_bounding_box], arithmetic on coordinates, modelled over the
      real numbers, with a binary64 companion for the latitude arithmetic;
    - the [__main__] loop, modelled by explicit state passing over a record
      holding the file system, the three counters and the trace of effects. *)

From Stdlib Require Import ZArith NArith Lia List Bool String Ascii.
From Stdlib Require Import Reals Lra Factorial.
From Stdlib Require Floats.PrimFloat.
From stdpp Require Import base gmap sets list.
Import ListNotations.

(* ================================================================= *)
(** ** Python strings *)

(** A Python [str] is a sequence of code points. *)
Abbreviation pystr := (list N).

(** A literal of the source, written as a Rocq string (ASCII only). *)
Definition codes (s : string) : pystr :=
  List.map N_of_ascii (list_ascii_of_string s).

Module Chr.
Definition underscore : N := 95.
Definition hyphen : N := 45.
Definition period : N := 46.
Definition slash : N := 47.
Definition backslash : N := 92.
Definition colon : N := 58.
End Chr.

(** [Py_UNICODE_ISSPACE] on the ASCII range: TAB..CR, FS..US and SPACE. *)
Definition is_ascii_space (c : N) : bool :=
  ((9 <=? c) && (c <=? 13) || (28 <=? c) && (c <=? 32))%N.

(** [Py_UNICODE_ISALNUM] on the ASCII range: digits and letters. *)
Definition is_ascii_alnum (c : N) : bool :=
  ((48 <=? c) && (c <=? 57) || (65 <=? c) && (c <=? 90)
   || (97 <=? c) && (c <=? 122))%N.

(** The character set the specification names: [A-Za-z0-9_.-]. *)
Definition in_ascii_set (c : N) : bool :=
  is_ascii_alnum c || (c =? Chr.underscore)%N || (c =? Chr.hyphen)%N
  || (c =? Chr.period)%N.

(** *** The string primitives the sanitizer uses *)

(** [s.lstrip(chars)], [s.rstrip(chars)], [s.strip(chars)] with the set of
    characters given as a predicate. *)
Fixpoint lstrip (cls : N -> bool) (s : pystr) : pystr :=
  match s with
  | [] => []
  | c :: t => if cls c then lstrip cls t else s
  end.

Definition rstrip (cls : N -> bool) (s : pystr) : pystr :=
  rev (lstrip cls (rev s)).

Definition strip (cls : N -> bool) (s : pystr) : pystr :=
  rstrip cls (lstrip cls s).

(** What a finished run of class characters becomes under
    [re.sub("[cls]{min,}", repl, _)]: the replacement when the run is long
    enough to match, the run itself otherwise. *)
Definition emit_run (min : nat) (repl run : pystr) : pystr :=
  match run with
  | [] => []
  | _ :: _ => if (min <=? length run)%nat then repl else run
  end.

(** [re.sub("[cls]{min,}", repl, s)] for [1 <= min]: the scan goes left to
    right, [run] is the maximal run of class characters read so far; the
    quantifier is greedy, so a match always covers a whole maximal run. *)
Fixpoint re_sub_runs_from (cls : N -> bool) (min : nat) (repl run s : pystr)
  : pystr :=
  match s with
  | [] => emit_run min repl run
  | c :: t =>
      if cls c then re_sub_runs_from cls min repl (run ++ [c]) t
      else emit_run min repl run ++ c :: re_sub_runs_from cls min repl [] t
  end.

Definition re_sub_runs (cls : N -> bool) (min : nat) (repl s : pystr) : pystr :=
  re_sub_runs_from cls min repl [] s.

(** [re.sub("[cls]", repl, s)]: every class character is a match of its own. *)
Definition re_sub_each (cls : N -> bool) (repl s : pystr) : pystr :=
  flat_map (fun c => if cls c then repl else [c]) s.

(* ================================================================= *)
(** ** sanitize_filename *)

Section Sanitize.

(** CPython's Unicode database decides [\s] and [\w] beyond ASCII; the two
    tables are taken as given. *)
Variables uni_space uni_alnum : N -> bool.

(** [\s] on a [str] pattern, which is also the set [str.strip()] removes. *)
Definition is_space (c : N) : bool :=
  if (c <? 128)%N then is_ascii_space c else uni_space c.

Definition is_alnum (c : N) : bool :=
  if (c <? 128)%N then is_ascii_alnum c else uni_alnum c.

(** [\w] on a [str] pattern. *)
Definition is_word (c : N) : bool := is_alnum c || (c =? Chr.underscore)%N.

(** The class [[\s/\\:]]. *)
Definition is_separator (c : N) : bool :=
  is_space c || (c =? Chr.slash)%N || (c =? Chr.backslash)%N
  || (c =? Chr.colon)%N.

(** The complement of the class [[^\w\-\.]]. *)
Definition is_kept (c : N) : bool :=
  is_word c || (c =? Chr.hyphen)%N || (c =? Chr.period)%N.

(** The set of [name.strip("_-")]. *)
Definition is_edge (c : N) : bool :=
  (c =? Chr.underscore)%N || (c =? Chr.hyphen)%N.

Definition sanitize_filename (name : pystr) : pystr :=
  let name := strip is_space name in
  let name := re_sub_runs is_separator 1 (codes "_") name in
  let name := re_sub_each (fun c => negb (is_kept c)) [] name in
  let name := re_sub_runs (N.eqb Chr.underscore) 2 (codes "_") name in
  let name := re_sub_runs (N.eqb Chr.hyphen) 2 (codes "-") name in
  let name := strip is_edge name in
  match name with
  | [] => codes "unnamed"
  | _ :: _ => name
  end.

End Sanitize.

(** The rows U+0080..U+00FF of the two tables (Latin-1 Supplement): NEL and
    NO-BREAK SPACE are white space; the letters, the superscript digits and
    the vulgar fractions are alphanumeric.  Beyond U+00FF these two functions
    carry no information, and they are only used on Latin-1 strings. *)
Definition latin1_space (c : N) : bool := ((c =? 133) || (c =? 160))%N.

Definition latin1_alnum (c : N) : bool :=
  ((c =? 170) || (c =? 178) || (c =? 179) || (c =? 181) || (c =? 185)
   || (c =? 186) || (188 <=? c) && (c <=? 190)
   || (192 <=? c) && (c <=? 214) || (216 <=? c) && (c <=? 246)
   || (248 <=? c) && (c <=? 255))%N.

(* ================================================================= *)
(** ** calculate_bounding_box *)

(** The line the near-pole branch prints. *)
Inductive pole_warning (coord : Type) : Type :=
| PoleWarning (lat_deg lon_deg : coord).
Arguments PoleWarning {coord} lat_deg lon_deg.

(** [math.radians] and [math.degrees] multiply by pi/180 and by 180/pi. *)
Definition radians (x : R) : R := (x * (PI / 180))%R.
Definition degrees (x : R) : R := (x * (180 / PI))%R.

Definition earth_radius_km : R := 6371%R.

(** The threshold [0.1] of the near-pole test. *)
Definition pole_threshold_km : R := (1 / 10)%R.

Definition parallel_radius_km (lat_deg : R) : R :=
  (earth_radius_km * cos (radians lat_deg))%R.

Definition delta_lat_deg (size_km : R) : R :=
  degrees ((size_km / 2) / earth_radius_km).

(** The two branches of the longitude half-extent, with what each prints. *)
Definition delta_lon_deg (lat_deg lon_deg size_km : R)
  : R * list (pole_warning R) :=
  if Rlt_dec (parallel_radius_km lat_deg) pole_threshold_km
  then (degrees ((size_km / 2) / (earth_radius_km * cos (radians 1))),
        [PoleWarning lat_deg lon_deg])
  else (degrees ((size_km / 2) / parallel_radius_km lat_deg), []).

(** Returns [(min_lat, min_lon, max_lat, max_lon)] and the lines printed. *)
Definition calculate_bounding_box (lat_deg lon_deg size_km : R)
  : (R * R * R * R) * list (pole_warning R) :=
  let d_lat := delta_lat_deg size_km in
  let '(d_lon, out) := delta_lon_deg lat_deg lon_deg size_km in
  let min_lat := (lat_deg - d_lat)%R in
  let max_lat := (lat_deg + d_lat)%R in
  let min_lon := (lon_deg - d_lon)%R in
  let max_lon := (lon_deg + d_lon)%R in
  ((min_lat, min_lon, max_lat, max_lon), out).

Definition min_lat (b : R * R * R * R) : R := let '(x, _, _, _) := b in x.
Definition min_lon (b : R * R * R * R) : R := let '(_, x, _, _) := b in x.
Definition max_lat (b : R * R * R * R) : R := let '(_, _, x, _) := b in x.
Definition max_lon (b : R * R * R * R) : R := let '(_, _, _, x) := b in x.

(** The box alone. *)
Definition bounding_box (lat_deg lon_deg size_km : R) : R * R * R * R :=
  fst (calculate_bounding_box lat_deg lon_deg size_km).

(** *** The latitude arithmetic in binary64

    Python floats are IEEE 754 binary64 numbers; [math.degrees(x)] is
    [x * (180.0 / pi)] with [pi] the double nearest to the constant.  The
    latitude bounds of the box are computed from [lat_deg] and [size_km] by
    divisions, one multiplication, one subtraction and one addition, none of
    which goes through [math.cos]. *)
Module Binary64.
Import Floats.PrimFloat.
Local Open Scope float_scope.

Definition pi : float := 0x1.921fb54442d18p+1.
Definition radToDeg : float := 180 / pi.
Definition degrees (x : float) : float := x * radToDeg.
Definition earth_radius_km : float := 6371.

Definition delta_lat_deg (size_km : float) : float :=
  degrees ((size_km / 2) / earth_radius_km).

(** [(min_lat, max_lat)] as [calculate_bounding_box] returns them. *)
Definition lat_bounds (lat_deg size_km : float) : float * float :=
  let d := delta_lat_deg size_km in (lat_deg - d, lat_deg + d).

End Binary64.

(* ================================================================= *)
(** ** The download driver *)

(** Configuration constants the driver reads. *)
Definition OUTPUT_BASE_DIR : pystr := codes "appdata/map/osm".
Definition API_DELAY : Z := 15.

(** [os.path.join(a, b)] (posixpath). *)
Definition os_path_join (a b : pystr) : pystr :=
  if bool_decide (head b = Some Chr.slash) then b
  else if bool_decide (a = []) || bool_decide (last a = Some Chr.slash)
       then a ++ b
       else a ++ codes "/" ++ b.

(** What the outside world answers to one call of [download_osm_data]:
    the fate of [requests.post] and, when a response comes back without an
    error status, the fate of writing the file. *)
Inductive post_result : Type :=
| Response (status_code : Z) (content : list N)
| Raises_Timeout
| Raises_RequestException
| Raises_Exception.

Inductive write_result : Type :=
| Written          (* [open] and [f.write] both return *)
| Open_raises      (* [open] raises: no file is created *)
| Write_raises.    (* [open] creates the file, [f.write] raises *)

Record outcome : Type := { posted : post_result; written : write_result }.

(** The line [download_osm_data] prints about the result. *)
Inductive hint : Type := Hint_increase_delay | Hint_server_overloaded.

Inductive report : Type :=
| Rep_success
| Rep_timeout
| Rep_http_error (status_code : Z) (h : option hint)
| Rep_request_error
| Rep_unexpected.

(** [response.raise_for_status()] raises for the 4xx and 5xx codes. *)
Definition is_error_status (status_code : Z) : bool :=
  ((400 <=? status_code) && (status_code <? 600))%Z.

Definition http_hint (status_code : Z) : option hint :=
  if (status_code =? 429)%Z then Some Hint_increase_delay
  else if (500 <=? status_code)%Z then Some Hint_server_overloaded
  else None.

(** What the driver takes from its platform: the Unicode tables behind the
    sanitizer, the type of coordinates with the text of [f"{x:.4f}"], the
    box computation, and the box side [BOX_SIZE_KM]. *)
Class Platform : Type := {
  unicode_space : N -> bool;
  unicode_alnum : N -> bool;
  coord : Type;
  format_4f : coord -> pystr;
  bbox : Type;
  bounding_box_of : coord -> coord -> coord -> bbox;
  BOX_SIZE_KM : coord
}.

Section Driver.

Context `{Platform}.

(** The effects the driver has on the outside world, in the order they
    happen.  Progress lines other than the ones listed are left out. *)
Inductive event : Type :=
| EvMakedirs (dir : pystr)
| EvSkip (output_path : pystr)
| EvPost (b : bbox) (output_filepath : pystr)
| EvWrite (output_filepath : pystr) (content : list N)
| EvReport (r : report)
| EvSleep (seconds : Z)
| EvSummary (processed success failed : nat).

(** [fs] is the set of paths at which [os.path.exists] answers true. *)
Record state : Type := {
  fs : gset pystr;
  processed_count : nat;
  success_count : nat;
  failed_count : nat;
  trace : list event
}.

Definition emit (e : event) (st : state) : state :=
  {| fs := fs st; processed_count := processed_count st;
     success_count := success_count st; failed_count := failed_count st;
     trace := trace st ++ [e] |}.

Definition create (p : pystr) (st : state) : state :=
  {| fs := {[ p ]} ∪ fs st; processed_count := processed_count st;
     success_count := success_count st; failed_count := failed_count st;
     trace := trace st |}.

Definition incr_processed (st : state) : state :=
  {| fs := fs st; processed_count := S (processed_count st);
     success_count := success_count st; failed_count := failed_count st;
     trace := trace st |}.

Definition incr_success (st : state) : state :=
  {| fs := fs st; processed_count := processed_count st;
     success_count := S (success_count st); failed_count := failed_count st;
     trace := trace st |}.

Definition incr_failed (st : state) : state :=
  {| fs := fs st; processed_count := processed_count st;
     success_count := success_count st; failed_count := S (failed_count st);
     trace := trace st |}.

(** [download_osm_data(bbox, output_filepath)]: one POST; on a response
    without error status the body goes to the file; every exception is
    caught, reported and turned into [False]. *)
Definition download_osm_data (o : outcome) (b : bbox) (output_filepath : pystr)
    (st : state) : bool * state :=
  let st := emit (EvPost b output_filepath) st in
  match posted o with
  | Response status_code content =>
      if is_error_status status_code
      then (false, emit (EvReport (Rep_http_error status_code
                                     (http_hint status_code))) st)
      else
        match written o with
        | Written =>
            (true, emit (EvReport Rep_success)
                     (emit (EvWrite output_filepath content)
                        (create output_filepath st)))
        | Open_raises => (false, emit (EvReport Rep_unexpected) st)
        | Write_raises =>
            (false, emit (EvReport Rep_unexpected) (create output_filepath st))
        end
  | Raises_Timeout => (false, emit (EvReport Rep_timeout) st)
  | Raises_RequestException => (false, emit (EvReport Rep_request_error) st)
  | Raises_Exception => (false, emit (EvReport Rep_unexpected) st)
  end.

(** The catalog: category name to the list of [(lat, lon, name)]. *)
Definition location : Type := coord * coord * pystr.
Definition catalog : Type := list (pystr * list location).

Definition sanitize : pystr -> pystr :=
  sanitize_filename unicode_space unicode_alnum.

Definition filename_of (sanitized_category : pystr) (loc : location) : pystr :=
  let '(lat, lon, name) := loc in
  sanitized_category ++ codes "_" ++ sanitize name ++ codes "_"
  ++ format_4f lat ++ codes "_" ++ format_4f lon ++ codes ".osm".

Definition category_dir_of (category : pystr) : pystr :=
  os_path_join OUTPUT_BASE_DIR (sanitize category).

Definition output_path_of (category : pystr) (loc : location) : pystr :=
  os_path_join (category_dir_of category) (filename_of (sanitize category) loc).

(** The world the driver runs in: whether [os.makedirs] succeeds on a
    directory, and the outcome of the download attempted for the location
    with a given value of [processed_count]. *)
Record world : Type := {
  makedirs_ok : pystr -> bool;
  outcome_at : nat -> outcome
}.

Section Loop.

Variable w : world.
Variable total_locations : nat.

(** The body of the inner [for] loop. *)
Definition process_location (category : pystr) (loc : location) (st : state)
  : state :=
  let st := incr_processed st in
  let output_path := output_path_of category loc in
  if bool_decide (output_path ∈ fs st)
  then incr_success (emit (EvSkip output_path) st)
  else
    let '(lat, lon, _) := loc in
    let b := bounding_box_of lat lon BOX_SIZE_KM in
    let '(success, st) :=
      download_osm_data (outcome_at w (processed_count st)) b output_path st in
    let st := if success then incr_success st else incr_failed st in
    if (processed_count st <? total_locations)%nat
    then emit (EvSleep API_DELAY) st
    else st.

(** The inner [for] loop. *)
Definition process_locations (category : pystr) (locations : list location)
    (st : state) : state :=
  fold_left (fun st loc => process_location category loc st) locations st.

(** [os.makedirs(dir, exist_ok=True)]: [None] when it raises. *)
Definition makedirs (dir : pystr) (st : state) : option state :=
  if makedirs_ok w dir then Some (emit (EvMakedirs dir) (create dir st))
  else None.

(** How a run ends: the summary was printed, or an exception left the loop. *)
Inductive run_result : Type :=
| Finished (st : state)
| Crashed (st : state).

(** The outer [for] loop. *)
Fixpoint process_categories (scenes : catalog) (st : state) : run_result :=
  match scenes with
  | [] => Finished st
  | (category, locations) :: rest =>
      match makedirs (category_dir_of category) st with
      | None => Crashed st
      | Some st =>
          process_categories rest (process_locations category locations st)
      end
  end.

End Loop.

Definition count_locations (scenes : catalog) : nat :=
  list_sum (List.map (fun cl => length (snd cl)) scenes).

Definition initial_state (fs0 : gset pystr) : state :=
  {| fs := fs0; processed_count := 0; success_count := 0; failed_count := 0;
     trace := [] |}.

(** The [__main__] block, started on the file system [fs0]. *)
Definition main (w : world) (scenes : catalog) (fs0 : gset pystr)
  : run_result :=
  match makedirs w OUTPUT_BASE_DIR (initial_state fs0) with
  | None => Crashed (initial_state fs0)
  | Some st =>
      let total_locations := count_locations scenes in
      match process_categories w total_locations scenes st with
      | Finished st =>
          Finished (emit (EvSummary (processed_count st) (success_count st)
                            (failed_count st)) st)
      | Crashed st => Crashed st
      end
  end.

Definition final_state (r : run_result) : state :=
  match r with Finished st | Crashed st => st end.

(** *** Reading a trace *)

Definition is_post (e : event) : bool :=
  match e with EvPost _ _ => true | _ => false end.
Definition is_sleep (e : event) : bool :=
  match e with EvSleep _ => true | _ => false end.
Definition is_skip (e : event) : bool :=
  match e with EvSkip _ => true | _ => false end.
Definition is_failure_report (e : event) : bool :=
  match e with
  | EvReport Rep_success => false
  | EvReport _ => true
  | _ => false
  end.

Definition count (f : event -> bool) (tr : list event) : nat :=
  length (List.filter f tr).

(** The output paths of the locations the loop has reached, in order. *)
Definition reached (tr : list event) : list pystr :=
  flat_map (fun e => match e with
                     | EvSkip p => [p]
                     | EvPost _ p => [p]
                     | _ => []
                     end) tr.

(** The output paths of a catalog, in processing order. *)
Definition catalog_paths (scenes : catalog) : list pystr :=
  flat_map (fun cl => List.map (output_path_of (fst cl)) (snd cl)) scenes.

(** A download attempt succeeds when a response without error status comes
    back and the file is written. *)
Definition attempt_ok (o : outcome) : bool :=
  match posted o, written o with
  | Response status_code _, Written => negb (is_error_status status_code)
  | _, _ => false
  end.

Definition posted_for (p : pystr) (tr : list event) : Prop :=
  exists b, In (EvPost b p) tr.

Definition written_to (p : pystr) (tr : list event) : Prop :=
  exists content, In (EvWrite p content) tr.

End Driver.

(** The driver on real coordinates with the box of [calculate_bounding_box];
    [BOX_SIZE_KM] is 2.0. *)
Definition real_platform (uni_space uni_alnum : N -> bool)
    (format : R -> pystr) : Platform :=
  {| unicode_space := uni_space; unicode_alnum := uni_alnum;
     coord := R; format_4f := format;
     bbox := R * R * R * R; bounding_box_of := bounding_box;
     BOX_SIZE_KM := 2%R |}.

(** The relation between the three counters. *)
Definition counters_consistent `{Platform} (st : state) : Prop :=
  processed_count st = success_count st + failed_count st.

(** A small platform to run the driver on examples: one coordinate, which
    prints as [0.0000], and no box. *)
Definition unit_platform : Platform :=
  {| unicode_space := latin1_space; unicode_alnum := latin1_alnum;
     coord := unit; format_4f := fun _ => codes "0.0000";
     bbox := unit; bounding_box_of := fun _ _ _ => tt;
     BOX_SIZE_KM := tt |}.

(* ================================================================= *)
(** ** Auxiliary notions for the properties *)

(** Runs of [x] squeezed to a single [x]: the effect of
    [re.sub("[x]{2,}", "x", s)], see [re_sub_runs_squeeze]. *)
Fixpoint squeeze (x : N) (s : pystr) : pystr :=
  match s with
  | [] => []
  | c :: t =>
      if (c =? x)%N && bool_decide (head t = Some x) then squeeze x t
      else c :: squeeze x t
  end.

(** No two adjacent occurrences of [x]. *)
Fixpoint no_double (x : N) (s : pystr) : Prop :=
  match s with
  | [] => True
  | c :: t => ~ (c = x /\ head t = Some x) /\ no_double x t
  end.

(** [sanitize_filename] before the fallback to ["unnamed"]. *)
Definition sanitized_core (uni_space uni_alnum : N -> bool) (name : pystr)
  : pystr :=
  let name := strip (is_space uni_space) name in
  let name := re_sub_runs (is_separator uni_space) 1 (codes "_") name in
  let name := re_sub_each (fun c => negb (is_kept uni_alnum c)) [] name in
  let name := re_sub_runs (N.eqb Chr.underscore) 2 (codes "_") name in
  let name := re_sub_runs (N.eqb Chr.hyphen) 2 (codes "-") name in
  strip is_edge name.

(** *** Notions used to state the properties of the driver *)

Section DriverNotions.

Context `{Platform}.

Implicit Types (st : state) (tr : list event) (p d : pystr) (w : world).

(** What a call adds to the trace: the POST, the write when there is one,
    and one report. *)
Definition download_events (o : outcome) (b : bbox) (p : pystr) : list event :=
  EvPost b p ::
  match posted o with
  | Response status_code content =>
      if is_error_status status_code
      then [EvReport (Rep_http_error status_code (http_hint status_code))]
      else match written o with
           | Written => [EvWrite p content; EvReport Rep_success]
           | _ => [EvReport Rep_unexpected]
           end
  | Raises_Timeout => [EvReport Rep_timeout]
  | Raises_RequestException => [EvReport Rep_request_error]
  | Raises_Exception => [EvReport Rep_unexpected]
  end.

Definition box_of (loc : location) : bbox :=
  let '(lat, lon, _) := loc in bounding_box_of lat lon BOX_SIZE_KM.

Definition sleep_events (total_locations processed : nat) : list event :=
  if (processed <? total_locations)%nat then [EvSleep API_DELAY] else [].

(** What one iteration adds to the trace. *)
Definition step_events w (total_locations : nat) (category : pystr)
    (loc : location) st : list event :=
  let p := output_path_of category loc in
  if bool_decide (p ∈ fs st) then [EvSkip p]
  else download_events (outcome_at w (S (processed_count st))) (box_of loc) p
       ++ sleep_events total_locations (S (processed_count st)).

Definition writes_exist st : Prop :=
  forall p, written_to p (trace st) -> p ∈ fs st.

Definition untouched (F : gset pystr) st : Prop :=
  F ⊆ fs st
  /\ forall p,
      p ∈ F -> ~ posted_for p (trace st) /\ ~ written_to p (trace st).


Definition pause_inv (total : nat) (rem : list pystr) st : Prop :=
  (forall q, In q rem ->
             (q ∉ fs st)
             /\ exists category loc, q = output_path_of category loc)
  /\ NoDup rem
  /\ processed_count st + length rem = total
  /\ count is_post (trace st) = processed_count st
  /\ count is_skip (trace st) = 0
  /\ count is_sleep (trace st) = Nat.min (processed_count st) (total - 1).

End DriverNotions.

(** *** A small catalog to run the driver on *)

Definition demo_scenes : @catalog unit_platform :=
  [ (codes "Urban Canyon",
     [ (tt, tt, codes "Park Avenue / Midtown");
       (tt, tt, codes "LaSalle Street") ]);
    (codes "Desert_Area",
     [ (tt, tt, codes "Gobi Desert") ]) ].

(** Every directory can be created; the second download times out, the
    others answer 200 and are written. *)
Definition demo_world : world :=
  {| makedirs_ok := fun _ => true;
     outcome_at := fun i =>
       if (i =? 2)%nat
       then {| posted := Raises_Timeout; written := Written |}
       else {| posted := Response 200 (codes "<osm/>"); written := Written |}
  |}.

(** As [demo_world], but the directory of the second category cannot be
    created. *)
Definition demo_world_no_desert : world :=
  {| makedirs_ok := fun d =>
       negb (bool_decide (d = codes "appdata/map/osm/Desert_Area"));
     outcome_at := outcome_at demo_world |}.

Definition demo_first : @state unit_platform :=
  final_state (main demo_world demo_scenes ∅).

Definition demo_second : @state unit_platform :=
  final_state (main demo_world demo_scenes (fs demo_first)).

(** *** Further notions about traces *)

Section TraceNotions.

Context `{Platform}.

Definition is_write (e : event) : bool :=
  match e with EvWrite _ _ => true | _ => false end.

Definition is_summary (e : event) : bool :=
  match e with EvSummary _ _ _ => true | _ => false end.

(** Every location reached was either skipped or posted for once; the
    successes are the skips and the writes; the failures are the failure
    reports; every POST ended in a write or in a failure report. *)
Definition accounted (st : state) : Prop :=
  processed_count st = count is_post (trace st) + count is_skip (trace st)
  /\ success_count st
     = count is_skip (trace st) + count is_write (trace st)
  /\ failed_count st = count is_failure_report (trace st)
  /\ count is_post (trace st)
     = count is_write (trace st) + count is_failure_report (trace st).

(** Pauses and POSTs while the paths [rem] are still to come. *)
Definition pauses_follow_posts (total : nat) (rem : list pystr)
    (st : state) : Prop :=
  processed_count st + length rem = total
  /\ count is_sleep (trace st) <= count is_post (trace st)
  /\ count is_post (trace st) <= count is_sleep (trace st) + 1
  /\ (rem <> [] -> count is_post (trace st) = count is_sleep (trace st)).

(** Every write comes after the creation of the base directory and of the
    category directory the written path lies in. *)
Definition directories_first (tr : list event) : Prop :=
  forall tr1 p content tr2,
    tr = tr1 ++ EvWrite p content :: tr2 ->
    In (EvMakedirs OUTPUT_BASE_DIR) tr1
    /\ exists category loc,
        p = output_path_of category loc
        /\ In (EvMakedirs (category_dir_of category)) tr1.

(** The locations reached are the first ones of the catalog, in order;
    what is written was posted for, what is posted for was reached. *)
Definition in_order (scenes : catalog) (rem : list pystr) (st : state)
  : Prop :=
  reached (trace st) ++ rem = catalog_paths scenes
  /\ processed_count st = length (reached (trace st))
  /\ (forall p, written_to p (trace st) -> posted_for p (trace st))
  /\ (forall p, posted_for p (trace st) -> In p (reached (trace st))).


End TraceNotions.

(* ================================================================= *)
(** ** The catalog

    The dictionary [scenes] of the source, in its order: category name to
    the list of [(latitude, longitude, name)].  The coordinates are the
    binary64 values of the literals. *)
Module Catalog.
Import Floats.PrimFloat.
Local Open Scope float_scope.

#[warnings="-inexact-float"]
Definition scenes : list (pystr * list (float * float * pystr)) :=
  [ (codes "Dense_Urban_High_Rise",
     [ (40.7580, -73.9855, codes "Times_Square_NYC");
       (31.2397, 121.5050, codes "Lujiazui_Shanghai");
       (35.6895, 139.6917, codes "Shinjuku_Tokyo");
       (22.2818, 114.1583, codes "Central_Hong_Kong");
       (51.5150, -0.0850, codes "Bank_Station_City_London");
       (41.8789, -87.6280, codes "Willis_Tower_Vicinity_Chicago");
       (43.6488, -79.3853, codes "Financial_District_Toronto");
       (34.0522, -118.2437, codes "Civic_Center_Los_Angeles");
       (25.1972, 55.2744, codes "Burj_Khalifa_Downtown_Dubai");
       (-33.8650, 151.2094, codes "Circular_Quay_Sydney_CBD") ]);
    (codes "Dense_Urban_Mid_Rise",
     [ (48.8584, 2.2945, codes "Eiffel_Tower_Vicinity_Paris");
       (41.9028, 12.4964, codes "Trevi_Fountain_Vicinity_Rome");
       (39.9075, 116.3972, codes "Forbidden_City_Vicinity_Beijing");
       (52.5170, 13.3889, codes "Brandenburg_Gate_Vicinity_Berlin");
       (40.4168, -3.7038, codes "Puerta_del_Sol_Madrid");
       (37.9838, 23.7275, codes "Plaka_District_Athens");
       (-34.6037, -58.3816, codes "Plaza_de_Mayo_Buenos_Aires");
       (45.4388, 12.3271, codes "Rialto_Bridge_Vicinity_Venice");
       (59.9139, 10.7522, codes "Oslo_Central_Station_Vicinity");
       (32.0853, 34.7818, codes "Sarona_Market_Tel_Aviv") ]);
    (codes "Urban_Canyon",
     [ (40.7568, -73.9752, codes "Park_Avenue_Midtown_NYC");
       (41.8818, -87.6327, codes "LaSalle_Street_Chicago_Loop");
       (34.0495, -118.2535, codes "Financial_District_LA_Canyon");
       (43.6500, -79.3820, codes "Bay_Street_Financial_District_Toronto");
       (35.6815, 139.7660, codes "Marunouchi_District_Tokyo");
       (51.5120, -0.0930, codes "Queen_Victoria_Street_London");
       (48.8738, 2.2950, codes "Avenue_Kleber_Near_Arc_Triomphe_Paris");
       (-33.8670, 151.2070, codes "George_Street_Sydney_CBD");
       (31.2300, 121.4750, codes "Nanjing_Road_Pedestrian_Street_Shanghai");
       (22.2805, 114.1580, codes "Queens_Road_Central_Hong_Kong") ]);
    (codes "Mixed_Urban",
     [ (47.6032, -122.3301, codes "Pioneer_Square_Seattle");
       (37.7749, -122.4194, codes "Hayes_Valley_San_Francisco");
       (51.5114, -0.1260, codes "Covent_Garden_London");
       (40.7411, -73.9898, codes "Flatiron_District_NYC");
       (38.9072, -77.0369, codes "Farragut_Square_Washington_DC");
       (45.5017, -73.5673, codes "Downtown_Montreal_Near_McGill");
       (52.3702, 4.8952, codes "Dam_Square_Vicinity_Amsterdam");
       (-33.9249, 18.4241, codes "Cape_Town_City_Centre");
       (19.4326, -99.1332, codes "Zocalo_Mexico_City");
       (4.7110, -74.0721, codes "Teusaquillo_District_Bogota") ]);
    (codes "Historical_City_Center",
     [ (43.7714, 11.2542, codes "Florence_Duomo_Vicinity");
       (50.0878, 14.4205, codes "Old_Town_Square_Prague");
       (39.4702, -0.3768, codes "Valencia_Cathedral_Vicinity");
       (37.9715, 23.7257, codes "Monastiraki_Square_Athens");
       (55.7558, 37.6173, codes "Red_Square_Moscow");
       (31.6295, -7.9811, codes "Jemaa_el_Fnaa_Marrakesh");
       (30.0444, 31.2357, codes "Khan_el_Khalili_Cairo");
       (13.7520, 100.4937, codes "Grand_Palace_Vicinity_Bangkok");
       (-12.0464, -77.0428, codes "Plaza_Mayor_Lima");
       (51.0504, 13.7373, codes "Frauenkirche_Dresden") ]);
    (codes "Dense_Suburban",
     [ (40.7558, -73.8855, codes "Jackson_Heights_Queens_NYC");
       (34.0050, -118.4450, codes "Westwood_Los_Angeles");
       (51.4500, -0.2000, codes "Richmond_London");
       (48.8044, 2.1204, codes "Versailles_Town_Center_France");
       (35.6467, 139.6500, codes "Setagaya_Ward_Tokyo");
       (-33.8350, 151.1500, codes "Lane_Cove_Sydney");
       (43.7500, -79.4500, codes "Yorkdale_Area_Toronto");
       (29.9500, -95.5500, codes "Energy_Corridor_West_Houston");
       (41.9000, -87.8500, codes "Elmwood_Park_Chicago_Suburbs");
       (52.3000, 4.8000, codes "Amstelveen_Stadshart_Netherlands") ]);
    (codes "Sparse_Suburban",
     [ (41.0339, -73.7629, codes "White_Plains_Suburbs_NY");
       (34.1500, -118.7000, codes "Agoura_Hills_California");
       (51.3760, -0.4000, codes "Weybridge_Surrey_UK");
       (47.6200, -122.1300, codes "Bellevue_Residential_Seattle_Eastside");
       (33.6500, -117.8000, codes "Northwood_Irvine_California");
       (42.3300, -71.2300, codes "Newton_Massachusetts_Suburbs");
       (-37.8500, 145.1000, codes "Glen_Waverley_Melbourne_Suburbs");
       (49.2500, -122.9500, codes "Burnaby_Residential_Vancouver");
       (39.0840, -77.1528, codes "Potomac_Maryland_Suburbs");
       (50.0500, 8.3500, codes "Kelsterbach_Frankfurt_Suburbs") ]);
    (codes "University_Campus",
     [ (42.3744, -71.1169, codes "Harvard_Yard_Cambridge_MA");
       (34.0689, -118.4452, codes "UCLA_Campus_Los_Angeles");
       (51.7548, -1.2544, codes "Radcliffe_Camera_Oxford_UK");
       (37.4275, -122.1697, codes "Stanford_University_Main_Quad");
       (47.6553, -122.3035, codes "University_of_Washington_Seattle");
       (35.7126, 139.7619, codes "University_of_Tokyo_Hongo_Campus");
       (39.9997, 116.3086, codes "Peking_University_Campus_Beijing");
       (-37.7963, 144.9614, codes "University_of_Melbourne_Parkville");
       (43.6629, -79.3957, codes "University_of_Toronto_St_George");
       (48.8469, 2.3446, codes "Sorbonne_University_Latin_Quarter_Paris") ]);
    (codes "Industrial_Park",
     [ (33.9740, -118.1700, codes "Commerce_Industrial_Area_LA");
       (40.8100, -74.0750, codes "Secaucus_Industrial_NJ");
       (51.4800, 0.1800, codes "Crossways_Business_Park_Dartford_UK");
       (31.3500, 121.2500, codes "Jiading_Industrial_Zone_Shanghai");
       (45.6000, -73.5000, codes "Anjou_Industrial_Park_Montreal");
       (50.1150, 8.7450, codes "Frankfurt_Fechenheim_Industrial");
       (24.9800, 55.1400, codes "Dubai_Industrial_City");
       (34.6580, 135.4350, codes "Konohana_Ward_Industrial_Osaka");
       (19.5400, -99.2100, codes "Tlalnepantla_Industrial_Mexico_City");
       (-23.6500, -46.7500, codes "Santo_Amaro_Industrial_Sao_Paulo") ]);
    (codes "Large_Urban_Park",
     [ (40.7829, -73.9654, codes "Central_Park_NYC");
       (51.5074, -0.1657, codes "Hyde_Park_London");
       (48.8588, 2.2945, codes "Champ_de_Mars_Paris");
       (37.8000, -122.4700, codes "Presidio_National_Park_San_Francisco");
       (-33.8680, 151.2180, codes "Royal_Botanic_Garden_Sydney");
       (52.5145, 13.3500, codes "Tiergarten_Berlin");
       (34.1366, -118.2940, codes "Griffith_Park_Observatory_Vicinity_LA");
       (43.6650, -79.3920, codes "Queens_Park_Toronto");
       (35.6700, 139.7000, codes "Yoyogi_Park_Tokyo");
       (40.4140, -3.6800, codes "El_Retiro_Park_Madrid") ]);
    (codes "Airport_Vicinity",
     [ (40.6413, -73.7781, codes "JFK_Airport_NYC");
       (51.4700, -0.4543, codes "London_Heathrow_Airport_LHR");
       (33.9416, -118.4085, codes "Los_Angeles_International_Airport_LAX");
       (49.0097, 2.5479, codes "Charles_de_Gaulle_Airport_CDG_Paris");
       (35.5494, 139.7798, codes "Tokyo_Haneda_Airport_HND");
       (31.1444, 121.3403, codes "Shanghai_Hongqiao_Airport_SHA");
       (50.0379, 8.5622, codes "Frankfurt_Airport_FRA");
       (33.6407, -84.4277, codes "Hartsfield_Jackson_Atlanta_Airport_ATL");
       (25.2532, 55.3657, codes "Dubai_International_Airport_DXB");
       (52.3105, 4.7683, codes "Amsterdam_Schiphol_Airport_AMS") ]);
    (codes "Stadium_Arena_Complex",
     [ (51.5560, -0.2795, codes "Wembley_Stadium_London");
       (40.8296, -73.9262, codes "Yankee_Stadium_Bronx_NYC");
       (41.9340, 12.4545, codes "Stadio_Olimpico_Rome");
       (-33.8900, 151.2250, codes "Sydney_Cricket_Ground_Moore_Park");
       (48.2188, 11.6245, codes "Allianz_Arena_Munich");
       (39.9060, -75.1670, codes "South_Philadelphia_Sports_Complex");
       (34.1614, -118.1874, codes "Rose_Bowl_Stadium_Pasadena");
       (43.6414, -79.3894, codes "Scotiabank_Arena_Rogers_Centre_Toronto");
       (39.9915, 116.3917, codes "Beijing_National_Stadium_Birds_Nest");
       (-22.9121, -43.2301, codes "Maracana_Stadium_Rio_de_Janeiro") ]);
    (codes "Shopping_Mall_Retail_Park",
     [ (44.8548, -93.3771, codes "Mall_of_America_Bloomington_MN");
       (25.1181, 55.1800, codes "Mall_of_the_Emirates_Dubai");
       (51.4570, -0.9720, codes "The_Oracle_Reading_UK");
       (33.6900, -117.8800, codes "South_Coast_Plaza_Costa_Mesa_CA");
       (43.7770, -79.3430, codes "CF_Fairview_Mall_Toronto");
       (34.1430, -118.2580, codes "Glendale_Galleria_Americana_CA");
       (53.4140, -2.2920, codes "Trafford_Centre_Manchester_UK");
       (30.4432, -91.1298, codes "Mall_of_Louisiana_Baton_Rouge");
       (-33.7850, 151.1820, codes "Macquarie_Centre_Sydney");
       (35.1700, 136.9060, codes "Sakae_Shopping_District_Nagoya") ]);
    (codes "Major_Train_Station_Area",
     [ (40.7505, -73.9934, codes "Penn_Station_NYC");
       (35.6812, 139.7671, codes "Tokyo_Station_Marunouchi_Exit");
       (48.8762, 2.3581, codes "Gare_du_Nord_Paris");
       (51.5310, -0.1230, codes "Kings_Cross_St_Pancras_London");
       (52.5251, 13.3694, codes "Berlin_Hauptbahnhof");
       (31.2460, 121.4580, codes "Shanghai_Railway_Station");
       (41.3790, 2.1400, codes "Barcelona_Sants_Station");
       (45.4669, 9.1900, codes "Milano_Centrale_Station");
       (28.6426, 77.2220, codes "New_Delhi_Railway_Station");
       (-33.8820, 151.2060, codes "Central_Station_Sydney") ]);
    (codes "Waterfront_Harbor_Area",
     [ (-33.8591, 151.2131, codes "Sydney_Opera_House_Circular_Quay");
       (47.6050, -122.3400, codes "Seattle_Waterfront_Piers");
       (37.8080, -122.4100, codes "Fishermans_Wharf_San_Francisco");
       (43.6400, -79.3750, codes "Toronto_Harbourfront_Centre");
       (53.5450, 9.9850, codes "HafenCity_Hamburg");
       (41.3750, 2.1800, codes "Port_Vell_Barcelona");
       (-33.9180, 18.4210, codes "V_and_A_Waterfront_Cape_Town");
       (51.9180, 4.4880, codes "Kop_van_Zuid_Rotterdam");
       (22.2855, 114.1580, codes "Victoria_Harbour_Central_Waterfront_HK");
       (32.7157, -117.1611, codes "Embarcadero_San_Diego") ]);
    (codes "Bridge_Crossing_Area",
     [ (37.8199, -122.4783, codes "Golden_Gate_Bridge_South_End_SF");
       (40.7061, -73.9969, codes "Brooklyn_Bridge_Manhattan_Side_NYC");
       (51.5055, -0.0754, codes "Tower_Bridge_London");
       (-33.8523, 151.2108, codes "Sydney_Harbour_Bridge_South_Pylon");
       (41.3980, 2.1990, codes "Pont_del_Treball_Digne_Barcelona");
       (34.6180, 135.0220, codes "Akashi_Kaikyo_Bridge_Kobe_Side");
       (47.6000, -122.2800, codes "I90_Floating_Bridge_Mercer_Island_Seattle");
       (38.8893, -77.0500, codes "Arlington_Memorial_Bridge_DC");
       (48.8415, 2.3660, codes "Pont_dAusterlitz_Paris");
       (38.3000, 21.7750, codes "Rio_Antirrio_Bridge_Greece") ]);
    (codes "Rural_Village_Center",
     [ (51.7500, -1.6000, codes "Burford_Village_Cotswolds_UK");
       (44.3450, 10.6450, codes "Castelnovo_ne_Monti_Vicinity_Italy");
       (47.3300, 1.8300, codes "Neuvy-sur-Barangeon_Village_France");
       (38.2800, -1.1300, codes "Fortuna_Town_Murcia_Spain");
       (40.6500, -76.3800, codes "Pine_Grove_Pennsylvania_USA");
       (35.1100, 135.8200, codes "Ohara_Village_Kyoto_Prefecture_Japan");
       (50.8000, 6.8000, codes "Erftstadt_Lechenich_Germany");
       (46.8000, 8.3000, codes "Sachseln_Village_Switzerland");
       (-33.9580, 18.8600, codes "Stellenbosch_Town_Center_South_Africa");
       (43.1000, -71.7500, codes "Weare_New_Hampshire_USA") ]);
    (codes "Open_Farmland_Flat",
     [ (41.5000, -93.0000, codes "Jasper_County_Iowa_USA");
       (49.5000, 2.5000, codes "Santerre_Plateau_Picardy_France");
       (52.6000, 0.3000, codes "The_Fens_Cambridgeshire_UK");
       (35.5000, -101.5000, codes "Texas_Panhandle_Farmland_USA");
       (-34.5000, 146.5000, codes "Riverina_Farmland_NSW_Australia");
       (45.2000, 8.5000, codes "Po_Valley_Farmland_Piedmont_Italy");
       (52.0000, 19.0000, codes "Central_Poland_Farmland_Lodz_Voivodeship");
       (-33.0000, -60.0000, codes "The_Pampas_Santa_Fe_Province_Argentina");
       (48.0000, 33.0000, codes "Kirovohrad_Oblast_Farmland_Ukraine");
       (47.0000, -100.0000, codes "Central_North_Dakota_Farmland_USA") ]);
    (codes "Hilly_Farmland_Rural_Area",
     [ (44.5000, 10.8000, codes "Emilian_Apennines_Foothills_Italy");
       (51.0000, -2.5000, codes "Blackmore_Vale_Dorset_UK");
       (46.5000, 6.5000, codes "Lavaux_Vineyards_Vaud_Switzerland");
       (39.5000, -78.0000, codes "Appalachian_Foothills_WV_MD_USA");
       (43.0000, -1.5000, codes "Baztan_Valley_Navarre_Spain");
       (-41.2000, 173.2000, codes "Tasman_District_Hills_New_Zealand");
       (36.3000, 140.2000, codes "Mount_Tsukuba_Foothills_Ibaraki_Japan");
       (50.0000, 10.5000, codes "Steigerwald_Nature_Park_Bavaria_Germany");
       (45.4000, -122.8000, codes "Tualatin_Valley_Hills_Oregon_USA");
       (38.5000, 22.5000, codes "Mount_Parnassus_Foothills_Greece") ]);
    (codes "Coastal_Town",
     [ (43.4810, -1.5560, codes "Biarritz_France");
       (36.5700, -4.9000, codes "Marbella_Old_Town_Spain");
       (34.4208, -119.6982, codes "Santa_Barbara_Stearns_Wharf_CA");
       (50.7200, -1.8800, codes "Bournemouth_Pier_UK");
       (-34.0540, 23.3700, codes "Plettenberg_Bay_Central_Beach_SA");
       (44.1419, 9.6968, codes "Vernazza_Cinque_Terre_Italy");
       (38.7115, -9.4210, codes "Cascais_Portugal");
       (-28.1600, 153.5400, codes "Surfers_Paradise_Gold_Coast_Australia");
       (32.6500, -16.9000, codes "Funchal_Marina_Madeira");
       (52.1400, -10.2700, codes "Dingle_Town_Ireland") ]);
    (codes "Hilly_Urban_Area",
     [ (37.7749, -122.4194, codes "Civic_Center_Hills_San_Francisco");
       (-22.9068, -43.1729, codes "Lapa_Santa_Teresa_Hills_Rio_de_Janeiro");
       (38.7100, -9.1400, codes "Alfama_District_Hills_Lisbon");
       (41.3950, 2.1530, codes "Gracia_District_Hills_Barcelona");
       (47.4925, 19.0400, codes "Gellert_Hill_Buda_Budapest");
       (40.8450, 14.2450, codes "Vomero_Hill_Naples");
       (37.9750, 23.7280, codes "Acropolis_Slopes_Athens");
       (36.8485, 174.7633, codes "Auckland_CBD_Hills");
       (47.6100, -122.3320, codes "Downtown_Seattle_Hills");
       (39.9526, -75.1652, codes "Center_City_Philadelphia") ]);
    (codes "Dense_Forest_Edge_Woodland",
     [ (48.9500, 8.4000, codes "Black_Forest_Edge_Karlsruhe_Germany");
       (45.4500, -73.9500, codes "Morgan_Arboretum_Vicinity_Montreal_QC");
       (35.8000, -78.8000, codes "Umstead_State_Park_Edge_Raleigh_NC");
       (51.3000, 0.5000, codes "Kent_Downs_Woodland_UK");
       (47.5500, -122.0500, codes "Cougar_Mountain_Park_Edge_Issaquah_WA");
       (48.8000, 2.5000, codes "Foret_de_Bondy_Edge_Paris_Suburbs");
       (35.6500, 139.4000, codes "Tama_Hills_Forest_Edge_Tokyo");
       (59.3000, 18.2000, codes "Nacka_Nature_Reserve_Edge_Stockholm");
       (43.1500, -79.1500, codes "Niagara_Glen_Nature_Reserve_ON_Canada");
       (-34.1000, 151.0500, codes "Royal_National_Park_Edge_Sydney") ]);
    (codes "Orchard_Vineyard_Area",
     [ (38.5000, -122.5000, codes "Napa_Valley_Vineyards_CA_USA");
       (44.8000, -0.6000, codes "Medoc_Vineyards_Bordeaux_France");
       (43.5000, 11.3000, codes "Chianti_Classico_Vineyards_Tuscany_Italy");
       (-33.8000, 18.8000, codes "Stellenbosch_Winelands_South_Africa");
       (49.8000, 8.0000, codes "Rheinhessen_Vineyards_Germany");
       (-33.3000, -71.0000, codes "Casablanca_Valley_Vineyards_Chile");
       (-41.5000, 173.8000, codes "Marlborough_Vineyards_New_Zealand");
       (46.1000, 4.7000, codes "Beaujolais_Vineyards_France");
       (45.3000, -123.0000, codes "Willamette_Valley_Vineyards_Oregon_USA");
       (41.6500, -4.0000, codes "Ribera_del_Duero_Vineyards_Spain") ]);
    (codes "Open_Ocean_Area",
     [ (35.0000, -45.0000,
        codes "North_Atlantic_Ocean_Mid_Atlantic_Ridge_Vicinity");
       (0.0000, -160.0000, codes "Central_Pacific_Ocean_Near_Line_Islands");
       (-20.0000, 80.0000, codes "Central_Indian_Ocean");
       (-50.0000, 160.0000,
          codes "South_Pacific_Ocean_Near_Antarctic_Convergence");
       (40.0000, 170.0000, codes "North_Pacific_Ocean_East_of_Japan_Trench");
       (35.0000, 25.0000, codes "Mediterranean_Sea_South_of_Crete");
       (-10.0000, -30.0000,
          codes "South_Atlantic_Ocean_Near_Mid_Atlantic_Ridge");
       (15.0000, -75.0000, codes "Caribbean_Sea_Central");
       (60.0000, 5.0000, codes "North_Sea_Off_Norway_Coast");
       (10.0000, 115.0000, codes "South_China_Sea_Spratly_Islands_Area") ]);
    (codes "Desert_Area",
     [ (24.0000, 12.0000,
        codes "Sahara_Desert_Tassili_nAjjer_Vicinity_Algeria_Libya");
       (21.0000, 52.0000, codes "Rub_al_Khali_Empty_Quarter_Saudi_Arabia");
       (44.0000, 108.0000, codes "Gobi_Desert_Mongolia");
       (-25.0000, 22.0000, codes "Kalahari_Desert_Botswana");
       (-28.0000, 125.0000, codes "Great_Victoria_Desert_Australia");
       (35.0000, -116.0000, codes "Mojave_Desert_California_USA");
       (-24.0000, -69.0000, codes "Atacama_Desert_Chile");
       (27.0000, 71.0000, codes "Thar_Desert_Rajasthan_India");
       (30.5000, 34.5000, codes "Negev_Desert_Israel");
       (40.7800, -113.8600,
          codes "Great_Salt_Lake_Desert_Bonneville_Salt_Flats_Utah_USA") ]) ].

(** The driver on binary64 coordinates, as the source runs it.  The text of
    [f"{x:.4f}"] and the box computation in binary64 (which goes through
    [math.cos]) are left to the platform; [BOX_SIZE_KM] is 2.0. *)
Definition float_platform (uni_space uni_alnum : N -> bool)
    (format : float -> pystr) (box : Type)
    (box_of : float -> float -> float -> box)
  : Platform :=
  {| unicode_space := uni_space; unicode_alnum := uni_alnum;
     coord := float; format_4f := format;
     bbox := box; bounding_box_of := box_of;
     BOX_SIZE_KM := 2%float |}.

(** Latitude at least one degree away from both poles, longitude within
    [-180, 180]. *)
Definition in_range (e : pystr * (float * float * pystr))
  : bool :=
  let '(_, (lat, lon, _)) := e in
  ((-89 <=? lat) && (lat <=? 89) && (-180 <=? lon) && (lon <=? 180))%bool.

End Catalog.


(** *** Decision procedures used on the catalog *)

Fixpoint pystr_eqb (s t : pystr) : bool :=
  match s, t with
  | [], [] => true
  | c :: s', d :: t' => (c =? d)%N && pystr_eqb s' t'
  | _, _ => false
  end.

Definition key_eqb (k1 k2 : pystr * pystr) : bool :=
  pystr_eqb (fst k1) (fst k2) && pystr_eqb (snd k1) (snd k2).

Fixpoint nodupb (l : list (pystr * pystr)) : bool :=
  match l with
  | [] => true
  | k :: l' => negb (existsb (key_eqb k) l') && nodupb l'
  end.

Fixpoint no_doubleb (x : N) (s : pystr) : bool :=
  match s with
  | [] => true
  | c :: t =>
      negb ((c =? x)%N && match t with d :: _ => (d =? x)%N | [] => false end)
      && no_doubleb x t
  end.

(** The hypotheses of [clean_fixed], decided. *)
Definition is_clean (s : pystr) : bool :=
  match s with
  | [] => false
  | c :: _ =>
      forallb in_ascii_set s
      && no_doubleb Chr.underscore s && no_doubleb Chr.hyphen s
      && negb (is_edge c)
      && match last s with Some d => negb (is_edge d) | None => false end
  end.

(** The locations of a catalog with their categories, in processing order. *)
Definition entries {C : Type} (scenes : list (pystr * list (C * C * pystr)))
  : list (pystr * (C * C * pystr)) :=
  flat_map (fun cl => List.map (fun loc => (fst cl, loc)) (snd cl)) scenes.

Definition entry_key {C : Type} (e : pystr * (C * C * pystr))
  : pystr * pystr :=
  (fst e, snd (snd e)).

(* ================================================================= *)
(** * Properties *)

(** ** The sanitizer on examples *)

Example sanitize_spec_example :
  sanitize_filename latin1_space latin1_alnum (codes "  Central Hong Kong! ")
  = codes "Central_Hong_Kong".
Proof. vm_compute. reflexivity. Qed.

Example sanitize_examples :
  let sanitize := sanitize_filename latin1_space latin1_alnum in
  sanitize (codes "") = codes "unnamed"
  /\ sanitize (codes "!!! ???") = codes "unnamed"
  /\ sanitize (codes "a//b\:c") = codes "a_b_c"
  /\ sanitize (codes "_a__b---c-_") = codes "a_b-c"
  /\ sanitize (codes "a_!_b") = codes "a_b"
  /\ sanitize (codes "x - y") = codes "x_-_y".
Proof. vm_compute. repeat split; reflexivity. Qed.

(* ================================================================= *)
(** ** Facts about the string primitives *)

Section StringFacts.

Context (cls : N -> bool).

Lemma lstrip_suffix s : exists a, s = a ++ lstrip cls s.
Proof.
  induction s as [|c t [a IH]]; simpl.
  - now exists [].
  - destruct (cls c).
    + exists (c :: a). simpl. now f_equal.
    + now exists [].
Qed.

Lemma rstrip_prefix s : exists b, s = rstrip cls s ++ b.
Proof.
  unfold rstrip. destruct (lstrip_suffix (rev s)) as [a Ha].
  exists (rev a). rewrite <- rev_app_distr, <- Ha. now rewrite rev_involutive.
Qed.

Lemma strip_infix s : exists a b, s = a ++ strip cls s ++ b.
Proof.
  unfold strip. destruct (lstrip_suffix s) as [a Ha].
  destruct (rstrip_prefix (lstrip cls s)) as [b Hb].
  exists a, b. now rewrite <- Hb.
Qed.

Lemma strip_Forall (P : N -> Prop) s : Forall P s -> Forall P (strip cls s).
Proof.
  intros H. destruct (strip_infix s) as (a & b & E). rewrite E in H.
  apply Forall_app in H as [_ H]. now apply Forall_app in H as [H _].
Qed.

Lemma lstrip_head s c : head (lstrip cls s) = Some c -> cls c = false.
Proof.
  induction s as [|d t IH]; simpl; [discriminate|].
  destruct (cls d) eqn:E; [exact IH|]. simpl. now intros [= <-].
Qed.

Lemma lstrip_fix s :
  (forall c, head s = Some c -> cls c = false) -> lstrip cls s = s.
Proof.
  destruct s as [|c t]; simpl; [reflexivity|].
  intros H. now rewrite (H c eq_refl).
Qed.

Lemma head_rev (s : pystr) : head (rev s) = last s.
Proof.
  induction s as [|c t IH] using rev_ind; [reflexivity|].
  now rewrite rev_app_distr, last_snoc.
Qed.

Lemma last_rev (s : pystr) : last (rev s) = head s.
Proof. now rewrite <- head_rev, rev_involutive. Qed.

Lemma rstrip_last s c : last (rstrip cls s) = Some c -> cls c = false.
Proof. unfold rstrip. rewrite last_rev. apply lstrip_head. Qed.

Lemma rstrip_fix s :
  (forall c, last s = Some c -> cls c = false) -> rstrip cls s = s.
Proof.
  intros H. unfold rstrip. rewrite lstrip_fix, rev_involutive; [reflexivity|].
  intros c. rewrite head_rev. apply H.
Qed.

Lemma strip_last s c : last (strip cls s) = Some c -> cls c = false.
Proof. apply rstrip_last. Qed.

Lemma strip_head s c : head (strip cls s) = Some c -> cls c = false.
Proof.
  unfold strip. intros H. apply (lstrip_head s).
  destruct (rstrip_prefix (lstrip cls s)) as [b E].
  destruct (rstrip cls (lstrip cls s)) as [|d r]; [discriminate|].
  rewrite E. exact H.
Qed.

Lemma strip_fix s :
  (forall c, head s = Some c -> cls c = false) ->
  (forall c, last s = Some c -> cls c = false) ->
  strip cls s = s.
Proof.
  intros Hh Hl. unfold strip. rewrite (lstrip_fix s Hh). now apply rstrip_fix.
Qed.

Lemma Forall_head (P : N -> Prop) (s : pystr) c :
  Forall P s -> head s = Some c -> P c.
Proof. destruct s; [discriminate|]. intros H [= <-]. now inversion H. Qed.

Lemma Forall_last (P : N -> Prop) (s : pystr) c :
  Forall P s -> last s = Some c -> P c.
Proof.
  intros H E. rewrite <- head_rev in E.
  apply (Forall_head P (rev s)); [|exact E]. now apply Forall_rev.
Qed.

(** *** Substitution of runs *)

Lemma emit_run_Forall (P : N -> Prop) min repl run :
  Forall P repl -> Forall P run -> Forall P (emit_run min repl run).
Proof.
  intros Hr Hrun. unfold emit_run. destruct run; [constructor|].
  now destruct (min <=? _)%nat.
Qed.

Lemma re_sub_runs_from_Forall (P : N -> Prop) min repl s :
  Forall P repl -> Forall P s ->
  forall run, Forall P run -> Forall P (re_sub_runs_from cls min repl run s).
Proof.
  intros Hr Hs. induction Hs as [|c t Hc Ht IH]; intros run Hrun; simpl.
  - now apply emit_run_Forall.
  - destruct (cls c).
    + apply IH. apply Forall_app. split; [exact Hrun|]. now constructor.
    + apply Forall_app. split; [now apply emit_run_Forall|].
      constructor; [exact Hc|]. apply IH. constructor.
Qed.

Lemma re_sub_runs_Forall (P : N -> Prop) min repl s :
  Forall P repl -> Forall P s -> Forall P (re_sub_runs cls min repl s).
Proof.
  intros. apply re_sub_runs_from_Forall; [assumption..|constructor].
Qed.

(** With [+] every run matches, so no class character survives. *)
Lemma re_sub_plus_clean repl s :
  Forall (fun c => cls c = false) repl ->
  forall run,
    Forall (fun c => cls c = false) (re_sub_runs_from cls 1 repl run s).
Proof.
  intros Hr. induction s as [|c t IH]; intros run; simpl.
  - destruct run; simpl; [constructor|exact Hr].
  - destruct (cls c) eqn:E; [apply IH|].
    apply Forall_app. split.
    + destruct run; simpl; [constructor|exact Hr].
    + constructor; [exact E|apply IH].
Qed.

(** A string without class characters has no match. *)
Lemma re_sub_runs_fix min repl s :
  Forall (fun c => cls c = false) s -> re_sub_runs cls min repl s = s.
Proof.
  unfold re_sub_runs. induction 1 as [|c t Hc _ IH]; simpl; [reflexivity|].
  rewrite Hc. simpl. now rewrite IH.
Qed.

Lemma re_sub_each_Forall (P : N -> Prop) repl s :
  Forall P repl -> Forall P s -> Forall P (re_sub_each cls repl s).
Proof.
  intros Hr. unfold re_sub_each. induction 1 as [|c t Hc _ IH]; simpl.
  - constructor.
  - apply Forall_app. split; [|exact IH]. destruct (cls c); [exact Hr|].
    now constructor.
Qed.

Lemma re_sub_each_clean s :
  Forall (fun c => cls c = false) (re_sub_each cls [] s).
Proof.
  unfold re_sub_each. induction s as [|c t IH]; simpl; [constructor|].
  destruct (cls c) eqn:E; simpl; [exact IH|]. now constructor.
Qed.

Lemma re_sub_each_fix repl s :
  Forall (fun c => cls c = false) s -> re_sub_each cls repl s = s.
Proof.
  unfold re_sub_each. induction 1 as [|c t Hc _ IH]; simpl; [reflexivity|].
  rewrite Hc. simpl. now rewrite IH.
Qed.

End StringFacts.

(** *** Squeezing runs *)

Section Squeeze.

Context (x : N).

Lemma emit_run_two (run : pystr) :
  run <> [] -> Forall (fun c => c = x) run -> emit_run 2 [x] run = [x].
Proof.
  intros Hne Hall. destruct run as [|a [|b r]]; [congruence| |reflexivity].
  simpl. inversion Hall; subst. reflexivity.
Qed.

Lemma squeeze_single c : squeeze x [c] = [c].
Proof. simpl. now rewrite andb_false_r. Qed.

Lemma squeeze_cons_ne c t : c <> x -> squeeze x (c :: t) = c :: squeeze x t.
Proof.
  intros Hc. simpl. destruct (N.eqb_spec c x); [contradiction|reflexivity].
Qed.

Lemma squeeze_cons_eq t : squeeze x (x :: x :: t) = squeeze x (x :: t).
Proof.
  change (squeeze x (x :: x :: t))
    with (if (x =? x)%N && bool_decide (head (x :: t) = Some x)
          then squeeze x (x :: t) else x :: squeeze x (x :: t)).
  rewrite N.eqb_refl. simpl head. now rewrite bool_decide_eq_true_2.
Qed.

Lemma squeeze_cons_last c t :
  c <> x -> squeeze x (x :: c :: t) = x :: c :: squeeze x t.
Proof.
  intros Hc.
  change (squeeze x (x :: c :: t))
    with (if (x =? x)%N && bool_decide (head (c :: t) = Some x)
          then squeeze x (c :: t) else x :: squeeze x (c :: t)).
  rewrite bool_decide_eq_false_2 by (simpl; intros [= E]; auto).
  rewrite andb_false_r. now rewrite squeeze_cons_ne.
Qed.

(** The regular-expression substitution and [squeeze] agree. *)
Lemma re_sub_runs_from_squeeze s :
  re_sub_runs_from (N.eqb x) 2 [x] [] s = squeeze x s
  /\ forall run, run <> [] -> Forall (fun c => c = x) run ->
       re_sub_runs_from (N.eqb x) 2 [x] run s = squeeze x (x :: s).
Proof.
  induction s as [|c t [IH0 IH1]].
  - split; [reflexivity|]. intros run Hne Hall. simpl re_sub_runs_from.
    rewrite emit_run_two by assumption. now rewrite squeeze_single.
  - assert (Hsnoc : forall run : pystr, run ++ [x] <> [])
      by (intros [|? ?]; discriminate).
    split.
    + simpl re_sub_runs_from. destruct (N.eqb_spec x c) as [<-|Hc].
      * apply IH1; [apply (Hsnoc [])|]. repeat constructor.
      * rewrite squeeze_cons_ne by congruence. simpl. now rewrite IH0.
    + intros run Hne Hall. simpl re_sub_runs_from.
      destruct (N.eqb_spec x c) as [<-|Hc].
      * rewrite squeeze_cons_eq. apply IH1; [apply Hsnoc|].
        apply Forall_app. split; [exact Hall|]. repeat constructor.
      * rewrite emit_run_two by assumption. rewrite IH0.
        now rewrite squeeze_cons_last by congruence.
Qed.

Lemma re_sub_runs_squeeze s : re_sub_runs (N.eqb x) 2 [x] s = squeeze x s.
Proof. apply re_sub_runs_from_squeeze. Qed.

Lemma squeeze_Forall (P : N -> Prop) s : Forall P s -> Forall P (squeeze x s).
Proof.
  induction 1 as [|c t Hc Ht IH]; simpl; [constructor|].
  destruct (_ && _); [exact IH|now constructor].
Qed.

Lemma head_squeeze s : head (squeeze x s) = head s.
Proof.
  induction s as [|c t IH]; simpl; [reflexivity|].
  destruct (N.eqb_spec c x) as [->|Hc]; simpl; [|reflexivity].
  destruct (bool_decide_reflect (head t = Some x)) as [E|E]; [|reflexivity].
  now rewrite IH.
Qed.

Lemma squeeze_no_double s : no_double x (squeeze x s).
Proof.
  induction s as [|c t IH]; simpl; [exact I|].
  destruct (N.eqb_spec c x) as [->|Hc]; simpl.
  - destruct (bool_decide_reflect (head t = Some x)) as [E|E]; [exact IH|].
    simpl. split; [|exact IH]. rewrite head_squeeze. tauto.
  - split; [|exact IH]. tauto.
Qed.

Lemma squeeze_fix s : no_double x s -> squeeze x s = s.
Proof.
  induction s as [|c t IH]; simpl; [reflexivity|]. intros [Hc Ht].
  rewrite (IH Ht). destruct (N.eqb_spec c x) as [->|Hne]; simpl; [|reflexivity].
  destruct (bool_decide_reflect (head t = Some x)) as [E|E]; [|reflexivity].
  tauto.
Qed.

Lemma no_double_app_r a s : no_double x (a ++ s) -> no_double x s.
Proof. induction a as [|c a IH]; simpl; [trivial|]. intros [_ H]. auto. Qed.

Lemma no_double_app_l s b : no_double x (s ++ b) -> no_double x s.
Proof.
  induction s as [|c t IH]; simpl; [trivial|]. intros [Hc Ht].
  split; [|auto]. intros [-> E]. apply Hc. split; [reflexivity|].
  destruct t; [discriminate|]. exact E.
Qed.

Lemma strip_no_double cls s : no_double x s -> no_double x (strip cls s).
Proof.
  intros H. destruct (strip_infix cls s) as (a & b & E). rewrite E in H.
  apply no_double_app_r in H. now apply no_double_app_l in H.
Qed.

End Squeeze.

(** Squeezing one character keeps another one free of doubles. *)
Lemma squeeze_keeps_no_double x y s :
  no_double x s -> no_double x (squeeze y s).
Proof.
  induction s as [|c t IH]; simpl; [trivial|]. intros [Hc Ht].
  destruct (_ && _); [auto|]. simpl. split; [|auto].
  now rewrite head_squeeze.
Qed.

(* ================================================================= *)
(** ** Properties of sanitize_filename *)

Section SanitizeFacts.

Variables uni_space uni_alnum : N -> bool.


Lemma sanitize_filename_core name :
  sanitize_filename uni_space uni_alnum name
  = match sanitized_core uni_space uni_alnum name with
    | [] => codes "unnamed"
    | _ :: _ => sanitized_core uni_space uni_alnum name
    end.
Proof. reflexivity. Qed.

(** The last three steps keep whatever holds of every character. *)
Lemma collapse_strip_Forall (P : N -> Prop) s :
  P Chr.underscore -> P Chr.hyphen -> Forall P s ->
  Forall P (strip is_edge
              (re_sub_runs (N.eqb Chr.hyphen) 2 (codes "-")
                 (re_sub_runs (N.eqb Chr.underscore) 2 (codes "_") s))).
Proof.
  intros Hu Hh Hs. apply strip_Forall.
  apply re_sub_runs_Forall; [repeat constructor; exact Hh|].
  apply re_sub_runs_Forall; [repeat constructor; exact Hu|exact Hs].
Qed.

Lemma sanitized_core_Forall (P : N -> Prop) s :
  P Chr.underscore -> P Chr.hyphen -> Forall P s ->
  Forall P (sanitized_core uni_space uni_alnum s).
Proof.
  intros Hu Hh Hs. apply collapse_strip_Forall; [exact Hu|exact Hh|].
  apply re_sub_each_Forall; [constructor|].
  apply re_sub_runs_Forall; [repeat constructor; exact Hu|].
  now apply strip_Forall.
Qed.

Lemma sanitized_core_kept s :
  Forall (fun c => is_kept uni_alnum c = true)
    (sanitized_core uni_space uni_alnum s).
Proof.
  apply collapse_strip_Forall; [reflexivity..|].
  eapply Forall_impl; [apply re_sub_each_clean|].
  intros c Hc. simpl in Hc. now apply negb_false_iff in Hc.
Qed.

Lemma sanitized_core_no_separator s :
  Forall (fun c => is_separator uni_space c = false)
    (sanitized_core uni_space uni_alnum s).
Proof.
  apply collapse_strip_Forall; [reflexivity..|].
  apply re_sub_each_Forall; [constructor|].
  apply re_sub_plus_clean. repeat constructor.
Qed.

Lemma sanitized_core_no_double s :
  no_double Chr.underscore (sanitized_core uni_space uni_alnum s)
  /\ no_double Chr.hyphen (sanitized_core uni_space uni_alnum s).
Proof.
  unfold sanitized_core.
  change (codes "_") with [Chr.underscore].
  change (codes "-") with [Chr.hyphen].
  rewrite !re_sub_runs_squeeze. split; apply strip_no_double.
  - apply squeeze_keeps_no_double, squeeze_no_double.
  - apply squeeze_no_double.
Qed.

Lemma sanitized_core_edges s c :
  (head (sanitized_core uni_space uni_alnum s) = Some c -> is_edge c = false)
  /\ (last (sanitized_core uni_space uni_alnum s) = Some c ->
      is_edge c = false).
Proof. split; [apply strip_head|apply strip_last]. Qed.

(** A string with the five properties of a sanitized one is left alone. *)
Lemma sanitized_core_fix r :
  Forall (fun c => is_kept uni_alnum c = true) r ->
  Forall (fun c => is_separator uni_space c = false) r ->
  no_double Chr.underscore r -> no_double Chr.hyphen r ->
  (forall c, head r = Some c -> is_edge c = false) ->
  (forall c, last r = Some c -> is_edge c = false) ->
  sanitized_core uni_space uni_alnum r = r.
Proof.
  intros HK HS HU HH Hhd Hlt. unfold sanitized_core.
  assert (Hsp : forall c,
             is_separator uni_space c = false -> is_space uni_space c = false).
  { intros c Hc. unfold is_separator in Hc.
    now destruct (is_space uni_space c). }
  rewrite (strip_fix (is_space uni_space)).
  2:{ intros c E. apply Hsp. exact (Forall_head _ _ _ HS E). }
  2:{ intros c E. apply Hsp. exact (Forall_last _ _ _ HS E). }
  rewrite (re_sub_runs_fix (is_separator uni_space)) by exact HS.
  rewrite re_sub_each_fix.
  2:{ eapply Forall_impl; [exact HK|]. intros c Hc. simpl. now rewrite Hc. }
  change (codes "_") with [Chr.underscore].
  change (codes "-") with [Chr.hyphen].
  rewrite !re_sub_runs_squeeze.
  rewrite (squeeze_fix _ _ HU), (squeeze_fix _ _ HH).
  now apply strip_fix.
Qed.

Lemma in_ascii_set_kept c :
  (c < 128)%N -> is_kept uni_alnum c = true -> in_ascii_set c = true.
Proof.
  intros Hc. unfold is_kept, is_word, is_alnum, in_ascii_set.
  apply N.ltb_lt in Hc. now rewrite Hc.
Qed.

Lemma is_edge_false c :
  is_edge c = false -> c <> Chr.underscore /\ c <> Chr.hyphen.
Proof.
  unfold is_edge. intros H. apply orb_false_iff in H as [Hu Hh].
  now apply N.eqb_neq in Hu, Hh.
Qed.

Lemma unnamed_fixed :
  sanitize_filename uni_space uni_alnum (codes "unnamed") = codes "unnamed".
Proof. reflexivity. Qed.

Lemma sanitize_filename_nonempty_kept (s : pystr) :
  sanitize_filename uni_space uni_alnum s <> []
  /\ Forall (fun c => is_kept uni_alnum c = true)
       (sanitize_filename uni_space uni_alnum s).
Proof.
  rewrite sanitize_filename_core. pose proof (sanitized_core_kept s) as HK.
  destruct (sanitized_core uni_space uni_alnum s) as [|a r].
  - split; [discriminate|repeat constructor].
  - split; [discriminate|exact HK].
Qed.

(** C2 (amended).  For every string [s], [sanitize_filename s] is defined and
    is a non-empty string made only of word characters (Python's [\w] on
    [str]: Unicode alphanumerics and the underscore), hyphens and periods;
    when [s] is ASCII every character of the result is in [A-Za-z0-9_.-].
    The result neither starts nor ends with an underscore or a hyphen, and
    it is the literal ["unnamed"] when the sanitization steps leave nothing. *)
Theorem sanitize_filename_total (s : pystr) :
  let r := sanitize_filename uni_space uni_alnum s in
  r <> []
  /\ Forall (fun c => is_kept uni_alnum c = true) r
  /\ (Forall (fun c => (c < 128)%N) s ->
      Forall (fun c => in_ascii_set c = true) r)
  /\ (forall c, head r = Some c -> c <> Chr.underscore /\ c <> Chr.hyphen)
  /\ (forall c, last r = Some c -> c <> Chr.underscore /\ c <> Chr.hyphen)
  /\ (sanitized_core uni_space uni_alnum s = [] -> r = codes "unnamed").
Proof.
  cbv zeta. rewrite sanitize_filename_core.
  pose proof (sanitized_core_kept s) as HK.
  pose proof (fun c => sanitized_core_edges s c) as HE.
  pose proof (sanitized_core_Forall (fun c => (c < 128)%N) s
                eq_refl eq_refl) as HA.
  destruct (sanitized_core uni_space uni_alnum s) as [|a r] eqn:E.
  - split; [discriminate|]. split; [repeat constructor|].
    split; [intros _; repeat constructor|].
    split; [|split; [|reflexivity]]; intros c [= <-]; split; discriminate.
  - split; [discriminate|]. split; [exact HK|]. split.
    + intros Hs. specialize (HA Hs).
      apply Forall_forall. intros c Hc.
      apply in_ascii_set_kept.
      * rewrite Forall_forall in HA. now apply HA.
      * rewrite Forall_forall in HK. now apply HK.
    + split; [|split; [|discriminate]].
      * intros c Hc. apply is_edge_false. exact (proj1 (HE c) Hc).
      * intros c Hc. apply is_edge_false. exact (proj2 (HE c) Hc).
Qed.

(** C6.  [sanitize_filename] is idempotent. *)
Theorem sanitize_filename_idempotent (s : pystr) :
  sanitize_filename uni_space uni_alnum
    (sanitize_filename uni_space uni_alnum s)
  = sanitize_filename uni_space uni_alnum s.
Proof.
  rewrite (sanitize_filename_core s).
  pose proof (sanitized_core_kept s) as HK.
  pose proof (sanitized_core_no_separator s) as HS.
  pose proof (sanitized_core_no_double s) as [HU HH].
  pose proof (fun c => sanitized_core_edges s c) as HE.
  destruct (sanitized_core uni_space uni_alnum s) as [|a r] eqn:E.
  - apply unnamed_fixed.
  - rewrite sanitize_filename_core.
    rewrite (sanitized_core_fix (a :: r)); try assumption; try reflexivity.
    + intros c. exact (proj1 (HE c)).
    + intros c. exact (proj2 (HE c)).
Qed.

End SanitizeFacts.

(** C2, as first stated, fails on a letter outside ASCII: U+00E9 is a word
    character, so it is kept, and it is not in [A-Za-z0-9_.-]. *)
Lemma sanitize_filename_keeps_e_acute :
  let r := sanitize_filename latin1_space latin1_alnum [233%N] in
  r = [233%N] /\ ~ Forall (fun c => in_ascii_set c = true) r.
Proof.
  split; [reflexivity|]. intros H.
  apply (Forall_head (fun c => in_ascii_set c = true) _ 233%N) in H;
    [discriminate|reflexivity].
Qed.

(** The result depends on the two tables only at the characters of the
    input, so the evaluation above holds for every pair of tables that
    classifies U+00E9 as alphanumeric and not as white space. *)
Lemma sanitize_filename_e_acute_any_table (uni_space uni_alnum : N -> bool) :
  uni_space 233%N = false -> uni_alnum 233%N = true ->
  sanitize_filename uni_space uni_alnum [233%N] = [233%N].
Proof.
  intros Hs Ha.
  assert (E1 : is_space uni_space 233 = false) by exact Hs.
  assert (E2 : is_separator uni_space 233 = false)
    by (unfold is_separator; now rewrite E1).
  assert (E3 : is_kept uni_alnum 233 = true)
    by (unfold is_kept, is_word, is_alnum; simpl; now rewrite Ha).
  unfold sanitize_filename, strip, rstrip, re_sub_runs, re_sub_each.
  simpl. rewrite E1. simpl. rewrite E1. simpl. rewrite E2. simpl.
  rewrite E3. reflexivity.
Qed.

(* ================================================================= *)
(** ** Properties of calculate_bounding_box *)

Section BoundingBoxFacts.

Local Open Scope R_scope.

Lemma degrees_pos x : 0 < x -> 0 < degrees x.
Proof.
  intros Hx. unfold degrees. apply Rmult_lt_0_compat; [exact Hx|].
  apply Rdiv_lt_0_compat; [lra|apply PI_RGT_0].
Qed.

Lemma cos_radians_1_pos : 0 < cos (radians 1).
Proof.
  pose proof PI_RGT_0 as Hpi.
  apply cos_gt_0; unfold radians; lra.
Qed.

Lemma delta_lat_deg_pos size_km : 0 < size_km -> 0 < delta_lat_deg size_km.
Proof.
  intros Hs. apply degrees_pos. unfold earth_radius_km.
  apply Rdiv_lt_0_compat; lra.
Qed.

Lemma delta_lon_deg_pos lat_deg lon_deg size_km :
  0 < size_km -> 0 < fst (delta_lon_deg lat_deg lon_deg size_km).
Proof.
  intros Hs. unfold delta_lon_deg.
  destruct (Rlt_dec _ _) as [Hlt|Hge]; simpl; apply degrees_pos;
    (apply Rdiv_lt_0_compat; [lra|]).
  - apply Rmult_lt_0_compat; [unfold earth_radius_km; lra|].
    apply cos_radians_1_pos.
  - unfold pole_threshold_km in Hge. lra.
Qed.

Lemma bounding_box_eq lat_deg lon_deg size_km :
  bounding_box lat_deg lon_deg size_km
  = (lat_deg - delta_lat_deg size_km,
     lon_deg - fst (delta_lon_deg lat_deg lon_deg size_km),
     lat_deg + delta_lat_deg size_km,
     lon_deg + fst (delta_lon_deg lat_deg lon_deg size_km)).
Proof.
  unfold bounding_box, calculate_bounding_box.
  now destruct (delta_lon_deg lat_deg lon_deg size_km).
Qed.

(** C4.  When the parallel radius [earth_radius * cos(lat)] is below 0.1 km,
    the longitude half-extent is
    [degrees((size_km/2) / (6371 * cos(radians(1))))] and a warning is
    printed; otherwise the divisor is the parallel radius itself and nothing
    is printed. *)
Theorem pole_fallback (lat_deg lon_deg size_km : R) :
  (6371 * cos (radians lat_deg) < 1 / 10 ->
   calculate_bounding_box lat_deg lon_deg size_km
   = (let d_lat := degrees ((size_km / 2) / 6371) in
      let d_lon := degrees ((size_km / 2) / (6371 * cos (radians 1))) in
      (lat_deg - d_lat, lon_deg - d_lon, lat_deg + d_lat, lon_deg + d_lon),
      [PoleWarning lat_deg lon_deg]))
  /\ (~ 6371 * cos (radians lat_deg) < 1 / 10 ->
      calculate_bounding_box lat_deg lon_deg size_km
      = (let d_lat := degrees ((size_km / 2) / 6371) in
         let d_lon :=
           degrees ((size_km / 2) / (6371 * cos (radians lat_deg))) in
         (lat_deg - d_lat, lon_deg - d_lon, lat_deg + d_lat, lon_deg + d_lon),
         [])).
Proof.
  unfold calculate_bounding_box, delta_lon_deg, delta_lat_deg,
    parallel_radius_km, pole_threshold_km, earth_radius_km.
  split; intros H; destruct (Rlt_dec _ _); try contradiction; reflexivity.
Qed.

(** C7.  The box is symmetric about its centre. *)
Theorem bounding_box_symmetric (lat_deg lon_deg size_km : R) :
  let b := bounding_box lat_deg lon_deg size_km in
  max_lat b - lat_deg = lat_deg - min_lat b
  /\ max_lon b - lon_deg = lon_deg - min_lon b.
Proof.
  cbv zeta. rewrite bounding_box_eq. simpl. split; ring.
Qed.

(** C8.  Doubling the side doubles both extents, in either branch. *)
Theorem bounding_box_scaling (lat_deg lon_deg size_km : R) :
  let b1 := bounding_box lat_deg lon_deg size_km in
  let b2 := bounding_box lat_deg lon_deg (2 * size_km) in
  max_lat b2 - min_lat b2 = 2 * (max_lat b1 - min_lat b1)
  /\ max_lon b2 - min_lon b2 = 2 * (max_lon b1 - min_lon b1).
Proof.
  cbv zeta. rewrite !bounding_box_eq. simpl.
  unfold delta_lat_deg, delta_lon_deg, degrees.
  split; [unfold Rdiv; ring|].
  destruct (Rlt_dec _ _); simpl; unfold Rdiv; ring.
Qed.

(** C10 (amended).  Over the real numbers the box is ordered and not
    degenerate for every latitude in [-90, 90] and every positive side. *)
Theorem bounding_box_ordered (lat_deg lon_deg size_km : R) :
  -90 <= lat_deg <= 90 -> 0 < size_km ->
  let b := bounding_box lat_deg lon_deg size_km in
  min_lat b < max_lat b /\ min_lon b < max_lon b.
Proof.
  intros _ Hs. cbv zeta. rewrite bounding_box_eq. simpl.
  pose proof (delta_lat_deg_pos size_km Hs).
  pose proof (delta_lon_deg_pos lat_deg lon_deg size_km Hs).
  split; lra.
Qed.

End BoundingBoxFacts.

(** Both branches of C4 are taken: the pole itself, and the equator. *)
Lemma pole_fallback_witness :
  (calculate_bounding_box 90 0 2
   = (let d_lat := degrees ((2 / 2) / 6371) in
      let d_lon := degrees ((2 / 2) / (6371 * cos (radians 1))) in
      (90 - d_lat, 0 - d_lon, 90 + d_lat, 0 + d_lon),
      [PoleWarning 90 0])
   /\ calculate_bounding_box 0 0 2
      = (let d_lat := degrees ((2 / 2) / 6371) in
         let d_lon := degrees ((2 / 2) / (6371 * cos (radians 0))) in
         (0 - d_lat, 0 - d_lon, 0 + d_lat, 0 + d_lon),
         []))%R.
Proof.
  split.
  - apply (proj1 (pole_fallback 90 0 2)).
    replace (radians 90) with (PI / 2)%R
      by (unfold radians; field; apply PI_neq0).
    rewrite cos_PI2. lra.
  - apply (proj2 (pole_fallback 0 0 2)).
    replace (radians 0) with 0%R by (unfold radians; field; apply PI_neq0).
    rewrite cos_0. lra.
Defined.

Lemma bounding_box_ordered_witness :
  (let b := bounding_box 0 0 2 in
   min_lat b < max_lat b /\ min_lon b < max_lon b)%R.
Proof. apply (bounding_box_ordered 0 0 2); lra. Defined.

Module Binary64Facts.
Import Floats.PrimFloat Binary64.
Local Open Scope float_scope.

(** C10, as first stated, fails in the arithmetic the code runs in: at
    latitude 45 and a side of 2^-70 km the half-extent is positive but
    smaller than half the spacing of the doubles around 45, so that both
    bounds round to 45. *)
Lemma bounding_box_degenerate_in_binary64 :
  let '(lo, hi) := lat_bounds 45 0x1p-70 in
  (0 <? 0x1p-70) = true
  /\ (0 <? delta_lat_deg 0x1p-70) = true
  /\ (lo <? hi) = false
  /\ (lo =? 45) = true /\ (hi =? 45) = true.
Proof. vm_compute. repeat split; reflexivity. Qed.

End Binary64Facts.

(* ================================================================= *)
(** ** Properties of the driver *)

Section DriverFacts.

Context `{Platform}.

Implicit Types (st : state) (tr : list event) (p d : pystr) (w : world).

Lemma count_app f tr1 tr2 : count f (tr1 ++ tr2) = count f tr1 + count f tr2.
Proof. unfold count. now rewrite List.filter_app, length_app. Qed.

Lemma reached_app tr1 tr2 : reached (tr1 ++ tr2) = reached tr1 ++ reached tr2.
Proof. unfold reached. apply flat_map_app. Qed.

Lemma posted_for_app p tr1 tr2 :
  posted_for p (tr1 ++ tr2) <-> posted_for p tr1 \/ posted_for p tr2.
Proof.
  unfold posted_for. split.
  - intros [b Hb]. apply in_app_or in Hb as [Hb|Hb]; [left|right]; eauto.
  - intros [[b Hb]|[b Hb]]; exists b; apply in_or_app; auto.
Qed.

Lemma written_to_app p tr1 tr2 :
  written_to p (tr1 ++ tr2) <-> written_to p tr1 \/ written_to p tr2.
Proof.
  unfold written_to. split.
  - intros [b Hb]. apply in_app_or in Hb as [Hb|Hb]; [left|right]; eauto.
  - intros [[b Hb]|[b Hb]]; exists b; apply in_or_app; auto.
Qed.

(** *** One call of download_osm_data *)

Lemma download_osm_data_spec (o : outcome) (b : bbox) p st :
  let '(ok, st') := download_osm_data o b p st in
  ok = attempt_ok o
  /\ trace st' = trace st ++ download_events o b p
  /\ processed_count st' = processed_count st
  /\ success_count st' = success_count st
  /\ failed_count st' = failed_count st
  /\ (fs st' = fs st \/ fs st' = {[ p ]} ∪ fs st)
  /\ (written_to p (download_events o b p) -> p ∈ fs st').
Proof.
  unfold download_osm_data, download_events, attempt_ok, written_to.
  destruct o as [[status content| | |] wr]; simpl;
    try destruct (is_error_status status); destruct wr; simpl;
    rewrite <- ?app_assoc; simpl;
    repeat split; auto;
    try (intros _; set_solver);
    intros [c Hc]; simpl in Hc;
    repeat (destruct Hc as [Hc|Hc]; [discriminate Hc|]); destruct Hc.
Qed.

Lemma download_events_counts (o : outcome) (b : bbox) p :
  count is_post (download_events o b p) = 1
  /\ count is_sleep (download_events o b p) = 0
  /\ count is_failure_report (download_events o b p)
     = (if attempt_ok o then 0 else 1)
  /\ reached (download_events o b p) = [p]
  /\ (forall q, posted_for q (download_events o b p) -> q = p).
Proof.
  unfold download_events, attempt_ok, posted_for.
  destruct o as [[status content| | |] wr]; simpl;
    try destruct (is_error_status status); destruct wr; simpl;
    repeat split; auto;
    intros q [c Hc]; simpl in Hc;
    repeat (destruct Hc as [Hc|Hc]; [congruence|]); destruct Hc.
Qed.

(** *** One iteration of the inner loop *)

Lemma process_location_skip w total category loc st :
  output_path_of category loc ∈ fs st ->
  process_location w total category loc st
  = {| fs := fs st;
       processed_count := S (processed_count st);
       success_count := S (success_count st);
       failed_count := failed_count st;
       trace := trace st ++ [EvSkip (output_path_of category loc)] |}.
Proof.
  intros Hin. unfold process_location. simpl.
  now rewrite bool_decide_eq_true_2.
Qed.

Lemma process_location_fetch w total category loc st :
  output_path_of category loc ∉ fs st ->
  let p := output_path_of category loc in
  let o := outcome_at w (S (processed_count st)) in
  let st' := process_location w total category loc st in
  trace st' = trace st ++ download_events o (box_of loc) p
                ++ sleep_events total (S (processed_count st))
  /\ processed_count st' = S (processed_count st)
  /\ success_count st' = success_count st + (if attempt_ok o then 1 else 0)
  /\ failed_count st' = failed_count st + (if attempt_ok o then 0 else 1)
  /\ (fs st' = fs st \/ fs st' = {[ p ]} ∪ fs st)
  /\ (written_to p (download_events o (box_of loc) p) -> p ∈ fs st').
Proof.
  intros Hnin. cbv zeta. unfold process_location, sleep_events. simpl.
  rewrite bool_decide_eq_false_2 by exact Hnin.
  destruct loc as [[lat lon] name]. simpl box_of.
  pose proof (download_osm_data_spec
                (outcome_at w (S (processed_count st)))
                (bounding_box_of lat lon BOX_SIZE_KM)
                (output_path_of category (lat, lon, name))
                (incr_processed st)) as Hd.
  destruct (download_osm_data _ _ _ _) as [ok st1].
  destruct Hd as (-> & Htr & Hp & Hs & Hf & Hfs & Hw). simpl in *.
  destruct (attempt_ok _); simpl; rewrite Hp;
    destruct (_ <? _)%nat; simpl;
    rewrite ?Htr, ?Hp, ?Hs, ?Hf, <- ?app_assoc, ?app_nil_r;
    repeat split; auto; lia.
Qed.

Lemma process_location_trace w total category loc st :
  trace (process_location w total category loc st)
  = trace st ++ step_events w total category loc st.
Proof.
  unfold step_events. case_bool_decide as Hin.
  - now rewrite process_location_skip.
  - apply (process_location_fetch w total category loc st Hin).
Qed.

Lemma process_location_processed w total category loc st :
  processed_count (process_location w total category loc st)
  = S (processed_count st).
Proof.
  destruct (decide (output_path_of category loc ∈ fs st)) as [Hin|Hin].
  - now rewrite process_location_skip.
  - apply (process_location_fetch w total category loc st Hin).
Qed.

Lemma process_location_fs w total category loc st :
  fs st ⊆ fs (process_location w total category loc st)
  /\ fs (process_location w total category loc st)
     ⊆ {[ output_path_of category loc ]} ∪ fs st.
Proof.
  destruct (decide (output_path_of category loc ∈ fs st)) as [Hin|Hin].
  - rewrite process_location_skip by exact Hin. simpl. set_solver.
  - destruct (process_location_fetch w total category loc st Hin)
      as (_ & _ & _ & _ & Hfs & _).
    destruct Hfs as [-> | ->]; set_solver.
Qed.

Lemma step_events_reached w total category loc st :
  reached (step_events w total category loc st)
  = [output_path_of category loc].
Proof.
  unfold step_events. case_bool_decide; [reflexivity|].
  rewrite reached_app.
  destruct (download_events_counts (outcome_at w (S (processed_count st)))
              (box_of loc) (output_path_of category loc))
    as (_ & _ & _ & -> & _).
  unfold sleep_events. now destruct (_ <? _)%nat.
Qed.

Lemma step_events_posted w total category loc st q :
  posted_for q (step_events w total category loc st) ->
  q = output_path_of category loc /\ q ∉ fs st.
Proof.
  unfold step_events. case_bool_decide as Hin.
  - intros [b [Hb|[]]]. discriminate.
  - intros Hq. apply posted_for_app in Hq as [Hq|Hq].
    + apply download_events_counts in Hq. now subst.
    + unfold sleep_events in Hq. destruct (_ <? _)%nat.
      * destruct Hq as [b [Hb|[]]]. discriminate.
      * destruct Hq as [b []].
Qed.

Lemma step_events_written w total category loc st q :
  written_to q (step_events w total category loc st) ->
  q = output_path_of category loc /\ (q ∉ fs st)
  /\ (q ∈ fs (process_location w total category loc st)).
Proof.
  unfold step_events. case_bool_decide as Hin.
  - intros [c [Hc|[]]]. discriminate.
  - intros Hq.
    destruct (process_location_fetch w total category loc st Hin)
      as (_ & _ & _ & _ & _ & Hw).
    apply written_to_app in Hq as [Hq|Hq].
    + assert (q = output_path_of category loc) as ->; [|now auto].
      destruct Hq as [c Hc]. unfold download_events in Hc.
      destruct Hc as [Hc|Hc]; [discriminate|].
      destruct (posted _); [destruct (is_error_status _);
                            [|destruct (written _)]|..]; simpl in Hc;
        repeat (destruct Hc as [Hc|Hc]; [congruence|]); destruct Hc.
    + unfold sleep_events in Hq. destruct (_ <? _)%nat.
      * destruct Hq as [b [Hb|[]]]. discriminate.
      * destruct Hq as [b []].
Qed.

(** *** Output paths *)

Lemma os_path_join_plain (a b : pystr) :
  head b <> Some Chr.slash -> a <> [] -> last a <> Some Chr.slash ->
  os_path_join a b = a ++ codes "/" ++ b.
Proof.
  intros Hb Ha Hl. unfold os_path_join.
  rewrite (bool_decide_eq_false_2 _ Hb), (bool_decide_eq_false_2 _ Ha),
    (bool_decide_eq_false_2 _ Hl). reflexivity.
Qed.

Lemma slash_not_kept : is_kept unicode_alnum Chr.slash = false.
Proof. reflexivity. Qed.

Lemma sanitize_shape (name : pystr) :
  sanitize name <> []
  /\ ~ In Chr.slash (sanitize name)
  /\ head (sanitize name) <> Some Chr.slash
  /\ last (sanitize name) <> Some Chr.slash.
Proof.
  unfold sanitize.
  destruct (sanitize_filename_nonempty_kept unicode_space unicode_alnum name)
    as (Hne & HK).
  assert (Hno : ~ In Chr.slash
                  (sanitize_filename unicode_space unicode_alnum name)).
  { intros Hin. rewrite Forall_forall in HK.
    apply list_elem_of_In, HK in Hin. now rewrite slash_not_kept in Hin. }
  split; [exact Hne|]. split; [exact Hno|]. split.
  - intros E. apply Hno.
    destruct (sanitize_filename _ _ _); [discriminate|].
    injection E as ->. now left.
  - intros E. apply Hno. apply list_elem_of_In. apply last_Some in E as [l' ->].
    apply list_elem_of_In, in_or_app. right. now left.
Qed.

Lemma category_dir_of_eq (category : pystr) :
  category_dir_of category
  = OUTPUT_BASE_DIR ++ codes "/" ++ sanitize category.
Proof.
  destruct (sanitize_shape category) as (_ & _ & Hh & _).
  unfold category_dir_of. apply os_path_join_plain; [exact Hh|discriminate..].
Qed.

Lemma last_app_nonempty (a b : pystr) : b <> [] -> last (a ++ b) = last b.
Proof.
  intros Hb. destruct b as [|c b] using rev_ind; [congruence|].
  now rewrite app_assoc, !last_snoc.
Qed.

Lemma output_path_of_eq (category : pystr) (loc : location) :
  output_path_of category loc
  = OUTPUT_BASE_DIR ++ codes "/" ++ sanitize category ++ codes "/"
    ++ filename_of (sanitize category) loc.
Proof.
  destruct (sanitize_shape category) as (Hne & _ & Hh & Hl).
  unfold output_path_of. rewrite category_dir_of_eq.
  rewrite os_path_join_plain.
  - now rewrite <- !app_assoc.
  - destruct loc as [[lat lon] name]. unfold filename_of.
    destruct (sanitize category); [congruence|]. exact Hh.
  - discriminate.
  - rewrite app_assoc, last_app_nonempty by exact Hne. exact Hl.
Qed.

(** No output path is a directory the driver creates. *)
Lemma output_path_not_dir (category category' : pystr) (loc : location) :
  output_path_of category loc <> category_dir_of category'
  /\ output_path_of category loc <> OUTPUT_BASE_DIR.
Proof.
  rewrite output_path_of_eq, category_dir_of_eq. split; intros E.
  - apply app_inv_head, app_inv_head in E.
    destruct (sanitize_shape category') as (_ & Hno & _).
    apply Hno. rewrite <- E. apply in_or_app. right. now left.
  - rewrite <- (app_nil_r OUTPUT_BASE_DIR) in E at 2.
    apply app_inv_head in E. discriminate.
Qed.

(** *** Whole runs *)

Lemma makedirs_Some w d st st' :
  makedirs w d st = Some st' ->
  makedirs_ok w d = true /\ st' = emit (EvMakedirs d) (create d st).
Proof.
  unfold makedirs. destruct (makedirs_ok w d); [|discriminate].
  now intros [= <-].
Qed.

Lemma process_locations_cons w total category loc locations st :
  process_locations w total category (loc :: locations) st
  = process_locations w total category locations
      (process_location w total category loc st).
Proof. reflexivity. Qed.

(** An invariant of every step is an invariant of the run, however the run
    ends. *)
Lemma process_categories_inv (I : state -> Prop) w total :
  (forall d st st', I st -> makedirs w d st = Some st' -> I st') ->
  (forall category loc st,
      I st -> I (process_location w total category loc st)) ->
  forall scenes st,
    I st -> I (final_state (process_categories w total scenes st)).
Proof.
  intros Hmk Hloc scenes.
  induction scenes as [|[category locations] rest IH]; intros st Hst;
    simpl; [exact Hst|].
  destruct (makedirs w (category_dir_of category) st) as [st1|] eqn:E;
    [|exact Hst].
  apply IH. apply Hmk in E; [|exact Hst]. clear Hst.
  revert st1 E. induction locations as [|loc locations IHl]; intros st1 Hst1;
    [exact Hst1|].
  rewrite process_locations_cons. apply IHl. now apply Hloc.
Qed.

Lemma main_inv (I : state -> Prop) w scenes fs0 :
  I (initial_state fs0) ->
  (forall d st st', I st -> makedirs w d st = Some st' -> I st') ->
  (forall category loc st,
      I st ->
      I (process_location w (count_locations scenes) category loc st)) ->
  (forall st,
      I st ->
      I (emit (EvSummary (processed_count st) (success_count st)
                 (failed_count st)) st)) ->
  I (final_state (main w scenes fs0)).
Proof.
  intros H0 Hmk Hloc Hsum. unfold main.
  destruct (makedirs w OUTPUT_BASE_DIR (initial_state fs0)) as [st0|] eqn:E;
    [|exact H0].
  pose proof (process_categories_inv I w (count_locations scenes) Hmk Hloc
                scenes st0 (Hmk _ _ _ H0 E)) as Hfin.
  destruct (process_categories _ _ _ _) as [st|st]; simpl in *; auto.
Qed.

(** An invariant that follows the list of output paths still to come; when
    no [os.makedirs] raises the run finishes with that list empty. *)
Lemma process_categories_paths (I : list pystr -> state -> Prop) w total :
  (forall d, makedirs_ok w d = true) ->
  (forall category rem st,
      I rem st ->
      I rem (emit (EvMakedirs (category_dir_of category))
               (create (category_dir_of category) st))) ->
  (forall category loc rem st,
      I (output_path_of category loc :: rem) st ->
      I rem (process_location w total category loc st)) ->
  forall scenes st,
    I (catalog_paths scenes) st ->
    exists st', process_categories w total scenes st = Finished st'
                /\ I [] st'.
Proof.
  intros Hok Hmk Hloc scenes.
  induction scenes as [|[category locations] rest IH]; intros st Hst; simpl.
  - now exists st.
  - unfold makedirs. rewrite Hok. apply IH.
    unfold catalog_paths in Hst. simpl in Hst. fold (catalog_paths rest) in Hst.
    apply (Hmk category) in Hst. revert Hst.
    generalize (emit (EvMakedirs (category_dir_of category))
                  (create (category_dir_of category) st)).
    induction locations as [|loc locations IHl]; intros st1 Hst1;
      [exact Hst1|].
    rewrite process_locations_cons. apply IHl. now apply Hloc.
Qed.

Lemma catalog_paths_length scenes :
  length (catalog_paths scenes) = count_locations scenes.
Proof.
  unfold catalog_paths, count_locations.
  induction scenes as [|[category locations] rest IH]; simpl; [reflexivity|].
  now rewrite length_app, length_map, IH.
Qed.

Lemma main_paths (I : list pystr -> state -> Prop) w scenes fs0 :
  (forall d, makedirs_ok w d = true) ->
  I (catalog_paths scenes)
    (emit (EvMakedirs OUTPUT_BASE_DIR)
       (create OUTPUT_BASE_DIR (initial_state fs0))) ->
  (forall category rem st,
      I rem st ->
      I rem (emit (EvMakedirs (category_dir_of category))
               (create (category_dir_of category) st))) ->
  (forall category loc rem st,
      I (output_path_of category loc :: rem) st ->
      I rem (process_location w (count_locations scenes) category loc st)) ->
  exists st,
    main w scenes fs0
    = Finished (emit (EvSummary (processed_count st) (success_count st)
                        (failed_count st)) st)
    /\ I [] st.
Proof.
  intros Hok H0 Hmk Hloc. unfold main, makedirs at 1. rewrite Hok.
  destruct (process_categories_paths I w (count_locations scenes)
              Hok Hmk Hloc scenes _ H0) as (st & -> & Hst).
  now exists st.
Qed.

Lemma trace_emit (e : event) st : trace (emit e st) = trace st ++ [e].
Proof. reflexivity. Qed.

Lemma main_Finished w scenes fs0 st :
  main w scenes fs0 = Finished st ->
  exists st0,
    st = emit (EvSummary (processed_count st0) (success_count st0)
                 (failed_count st0)) st0.
Proof.
  unfold main. destruct (makedirs _ _ _); [|discriminate].
  destruct (process_categories _ _ _ _) as [st0|st0]; [|discriminate].
  intros [= <-]. now exists st0.
Qed.

Lemma step_events_counts w total category loc st :
  let p := output_path_of category loc in
  let st' := process_location w total category loc st in
  count is_post (step_events w total category loc st)
  = (if bool_decide (p ∈ fs st) then 0 else 1)
  /\ count is_sleep (step_events w total category loc st)
     = (if bool_decide (p ∈ fs st) then 0
        else if (S (processed_count st) <? total)%nat then 1 else 0)
  /\ failed_count st'
     = failed_count st
       + count is_failure_report (step_events w total category loc st)
  /\ success_count st' + failed_count st'
     = S (success_count st + failed_count st).
Proof.
  cbv zeta. unfold step_events. case_bool_decide as Hin.
  - rewrite process_location_skip by exact Hin. simpl.
    repeat split; auto; lia.
  - destruct (process_location_fetch w total category loc st Hin)
      as (_ & _ & Hs & Hf & _).
    destruct (download_events_counts (outcome_at w (S (processed_count st)))
                (box_of loc) (output_path_of category loc))
      as (Hp & Hsl & Hfr & _).
    rewrite !count_app, Hp, Hsl, Hfr, Hs, Hf. unfold sleep_events.
    destruct (attempt_ok _); destruct (_ <? _)%nat; simpl;
      repeat split; lia.
Qed.

(** *** The counters (C9) *)

Lemma process_location_consistent w total category loc st :
  counters_consistent st ->
  counters_consistent (process_location w total category loc st).
Proof.
  unfold counters_consistent. intros Hst.
  rewrite process_location_processed.
  destruct (step_events_counts w total category loc st) as (_ & _ & _ & E).
  lia.
Qed.

(** C9.  [processed_count = success_count + failed_count] holds at the
    start, is kept by every iteration of the inner loop (a skipped location
    adding one to [success_count]), holds in the state the run ends in, and
    the summary of a run that finishes prints counts that satisfy it.  When
    no [os.makedirs] raises the run does finish: the summary is printed, as
    the last effect of the run, with the three counters, the first being the
    number of locations of the catalog and the sum of the other two. *)
Theorem counters_invariant w scenes fs0 :
  counters_consistent (initial_state fs0)
  /\ (forall total category loc st,
         counters_consistent st ->
         counters_consistent (process_location w total category loc st))
  /\ (forall total category loc st,
         output_path_of category loc ∈ fs st ->
         let st' := process_location w total category loc st in
         success_count st' = S (success_count st)
         /\ failed_count st' = failed_count st)
  /\ counters_consistent (final_state (main w scenes fs0))
  /\ (forall st,
         main w scenes fs0 = Finished st ->
         exists processed success failed,
           last (trace st) = Some (EvSummary processed success failed)
           /\ processed = processed_count st
           /\ success = success_count st
           /\ failed = failed_count st
           /\ processed = success + failed)
  /\ ((forall d, makedirs_ok w d = true) ->
      exists st processed success failed,
        main w scenes fs0 = Finished st
        /\ last (trace st) = Some (EvSummary processed success failed)
        /\ processed = processed_count st
        /\ success = success_count st
        /\ failed = failed_count st
        /\ processed = count_locations scenes
        /\ processed = success + failed).
Proof.
  assert (Hfin : counters_consistent (final_state (main w scenes fs0))).
  { apply main_inv; [reflexivity| | |now intros st Hst].
    - intros d st st' Hst E. apply makedirs_Some in E as [_ ->]. exact Hst.
    - intros category loc st. apply process_location_consistent. }
  split; [reflexivity|]. split; [apply process_location_consistent|].
  split.
  { intros total category loc st Hin. cbv zeta.
    now rewrite process_location_skip. }
  split; [exact Hfin|]. split.
  - intros st E. rewrite E in Hfin. simpl in Hfin.
    apply main_Finished in E as [st0 ->].
    eexists _, _, _. split; [rewrite trace_emit; apply last_snoc|].
    repeat split. exact Hfin.
  - intros Hok.
    destruct (main_paths
                (fun rem st =>
                   processed_count st + length rem = count_locations scenes)
                w scenes fs0 Hok) as (st0 & E & Hp).
    + apply catalog_paths_length.
    + intros category rem st Hst. exact Hst.
    + intros category loc rem st Hst.
      rewrite process_location_processed. simpl in Hst. lia.
    + rewrite E in Hfin. unfold counters_consistent in Hfin.
      simpl in Hfin, Hp.
      eexists _, _, _, _. split; [exact E|].
      split; [rewrite trace_emit; apply last_snoc|].
      simpl. repeat split; lia.
Qed.

(** *** Skipping what exists (C1) *)

Lemma writes_exist_main w scenes fs0 :
  writes_exist (final_state (main w scenes fs0)).
Proof.
  apply main_inv.
  - intros p [c []].
  - intros d st st' Hst E. apply makedirs_Some in E as [_ ->].
    intros p Hp. rewrite trace_emit in Hp.
    apply written_to_app in Hp as [Hp|Hp].
    + apply Hst in Hp. simpl. set_solver.
    + destruct Hp as [c [Hc|[]]]. discriminate.
  - intros category loc st Hst p Hp.
    rewrite process_location_trace in Hp.
    apply written_to_app in Hp as [Hp|Hp].
    + apply Hst in Hp.
      now apply (process_location_fs w (count_locations scenes) category loc
                   st).
    + now apply step_events_written in Hp.
  - intros st Hst p Hp. rewrite trace_emit in Hp.
    apply written_to_app in Hp as [Hp|Hp]; [now apply Hst|].
    destruct Hp as [c [Hc|[]]]. discriminate.
Qed.

Lemma untouched_main w scenes fs0 :
  untouched fs0 (final_state (main w scenes fs0)).
Proof.
  apply main_inv.
  - split; [reflexivity|]. intros p _. split; intros [c []].
  - intros d st st' [Hsub Hst] E. apply makedirs_Some in E as [_ ->].
    split; [simpl; clear Hst; set_solver|]. intros p Hp. rewrite trace_emit.
    rewrite posted_for_app, written_to_app. destruct (Hst p Hp) as [H1 H2].
    split; (intros [?|[c [Hc|[]]]]; [auto|discriminate]).
  - intros category loc st [Hsub Hst]. split.
    + etransitivity; [exact Hsub|].
      apply (process_location_fs w (count_locations scenes) category loc st).
    + intros p Hp. rewrite process_location_trace.
      rewrite posted_for_app, written_to_app. destruct (Hst p Hp) as [H1 H2].
      split; (intros [?|Hq]; [auto|]).
      * apply step_events_posted in Hq as [_ Hq]. apply Hq, Hsub, Hp.
      * apply step_events_written in Hq as (_ & Hq & _). apply Hq, Hsub, Hp.
  - intros st [Hsub Hst]. split; [exact Hsub|]. intros p Hp.
    rewrite trace_emit, posted_for_app, written_to_app.
    destruct (Hst p Hp) as [H1 H2].
    split; (intros [?|[c [Hc|[]]]]; [auto|discriminate]).
Qed.

(** C1.  A location whose output file exists when the driver reaches it
    costs no POST, no write and no pause: the iteration only counts it as
    processed and as a success.  Hence, when the driver is run again on the
    file system a first run left, no location whose file the first run wrote
    is posted for or written again, whatever the world answers. *)
Theorem skip_existing w1 w2 scenes fs0 :
  (forall total category loc st,
      output_path_of category loc ∈ fs st ->
      process_location w2 total category loc st
      = {| fs := fs st;
           processed_count := S (processed_count st);
           success_count := S (success_count st);
           failed_count := failed_count st;
           trace := trace st ++ [EvSkip (output_path_of category loc)] |})
  /\ (let st1 := final_state (main w1 scenes fs0) in
      let st2 := final_state (main w2 scenes (fs st1)) in
      forall p,
        written_to p (trace st1) ->
        p ∈ fs st1
        /\ ~ posted_for p (trace st2) /\ ~ written_to p (trace st2)).
Proof.
  split; [intros; now apply process_location_skip|].
  cbv zeta. intros p Hp. apply writes_exist_main in Hp.
  split; [exact Hp|].
  now apply (untouched_main w2 scenes (fs (final_state (main w1 scenes fs0)))).
Qed.

(** *** Failures do not stop the run (C3) *)



(** *** The pause between requests (C5) *)

Lemma catalog_paths_In scenes q :
  In q (catalog_paths scenes) ->
  exists category loc, q = output_path_of category loc.
Proof.
  unfold catalog_paths. intros Hq. apply in_flat_map in Hq as ([c l] & _ & Hq).
  apply in_map_iff in Hq as (loc & <- & _). now exists c, loc.
Qed.

Lemma pause_inv_main w scenes fs0 :
  (forall d, makedirs_ok w d = true) ->
  (forall p, In p (catalog_paths scenes) -> p ∉ fs0) ->
  NoDup (catalog_paths scenes) ->
  exists st,
    main w scenes fs0
    = Finished (emit (EvSummary (processed_count st) (success_count st)
                        (failed_count st)) st)
    /\ pause_inv (count_locations scenes) [] st.
Proof.
  intros Hok Hfresh Hnd. apply main_paths; [exact Hok|..].
  - split.
    { intros q Hq. split; [|now apply (catalog_paths_In scenes)].
      destruct (catalog_paths_In scenes q Hq) as (c & l & ->).
      simpl. intros Hin. apply elem_of_union in Hin as [Hin|Hin].
      - apply elem_of_singleton in Hin.
        now apply (output_path_not_dir c c l) in Hin.
      - now apply (Hfresh _ Hq). }
    split; [exact Hnd|]. split; [apply catalog_paths_length|].
    repeat split.
  - intros category rem st (Hq & Hn & Hp & Hpost & Hskip & Hsl).
    unfold pause_inv. rewrite trace_emit, !count_app. simpl.
    split.
    { intros q Hin. destruct (Hq q Hin) as [Hnin Hpath].
      split; [|exact Hpath]. destruct Hpath as (c & l & ->).
      intros Hin'. apply elem_of_union in Hin' as [Hin'|Hin'].
      - apply elem_of_singleton in Hin'.
        now apply (output_path_not_dir c category l) in Hin'.
      - contradiction. }
    split; [exact Hn|]. split; [exact Hp|].
    unfold count in *. simpl. repeat split; lia.
  - intros category loc rem st (Hq & Hn & Hp & Hpost & Hskip & Hsl).
    unfold pause_inv.
    destruct (Hq _ (or_introl eq_refl)) as [Hnin _].
    apply NoDup_cons in Hn as [Hfirst Hn].
    pose proof (process_location_fs w (count_locations scenes) category loc st)
      as [_ Hfs].
    destruct (step_events_counts w (count_locations scenes) category loc st)
      as (Hcp & Hcs & _).
    rewrite bool_decide_eq_false_2 in Hcp, Hcs by exact Hnin.
    assert (Hck : count is_skip
                    (step_events w (count_locations scenes) category loc st)
                  = 0).
    { unfold step_events. rewrite bool_decide_eq_false_2 by exact Hnin.
      rewrite count_app. unfold download_events, sleep_events.
      destruct (posted _); [destruct (is_error_status _);
                            [|destruct (written _)]|..];
        destruct (_ <? _)%nat; reflexivity. }
    rewrite process_location_trace, !count_app, process_location_processed,
      Hcp, Hcs, Hck.
    split.
    { intros q Hin. destruct (Hq q (or_intror Hin)) as [Hqn Hpath].
      split; [|exact Hpath]. intros Hin'. apply Hfs in Hin'.
      apply elem_of_union in Hin' as [Hin'|Hin']; [|contradiction].
      apply elem_of_singleton in Hin'. subst q.
      apply Hfirst. now apply list_elem_of_In. }
    split; [exact Hn|]. simpl in Hp.
    destruct (Nat.ltb_spec (S (processed_count st)) (count_locations scenes));
      repeat split; lia.
Qed.

Lemma step_events_sleep w total category loc st s :
  In (EvSleep s) (step_events w total category loc st) -> s = API_DELAY.
Proof.
  unfold step_events, download_events, sleep_events.
  case_bool_decide; [intros [Hs|[]]; discriminate|].
  intros Hs. apply in_app_or in Hs as [Hs|Hs].
  - destruct Hs as [Hs|Hs]; [discriminate|].
    destruct (posted _); [destruct (is_error_status _);
                          [|destruct (written _)]|..]; simpl in Hs;
      repeat (destruct Hs as [Hs|Hs]; [discriminate|]); destruct Hs.
  - destruct (_ <? _)%nat; [|destruct Hs].
    destruct Hs as [[= <-]|[]]. reflexivity.
Qed.

Lemma sleeps_fixed_main w scenes fs0 s :
  In (EvSleep s) (trace (final_state (main w scenes fs0))) -> s = API_DELAY.
Proof.
  revert s. apply (main_inv (fun st => forall s, In (EvSleep s) (trace st) ->
                                                 s = API_DELAY)).
  - intros s [].
  - intros d st st' Hst E s. apply makedirs_Some in E as [_ ->].
    rewrite trace_emit. intros Hs. apply in_app_or in Hs as [Hs|Hs]; [auto|].
    destruct Hs as [Hs|[]]. discriminate.
  - intros category loc st Hst s. rewrite process_location_trace.
    intros Hs. apply in_app_or in Hs as [Hs|Hs]; [auto|].
    now apply step_events_sleep in Hs.
  - intros st Hst s. rewrite trace_emit.
    intros Hs. apply in_app_or in Hs as [Hs|Hs]; [auto|].
    destruct Hs as [Hs|[]]. discriminate.
Qed.

(** C5.  An iteration that attempts a download ends with one pause of
    [API_DELAY] seconds unless [processed_count] has reached
    [total_locations], which happens at the last location of the catalog
    only; a skipped location is followed by no pause.  Every pause of a run
    lasts [API_DELAY] = 15 seconds.  In a run where no [os.makedirs] raises,
    no output path exists at the start and the output paths are pairwise
    distinct, no location is skipped, every location is posted for, and the
    number of pauses is the number of locations minus one (zero for an empty
    catalog). *)
Theorem inter_request_delay w scenes fs0 :
  (forall total category loc st,
      let st' := process_location w total category loc st in
      let pauses st := count is_sleep (trace st) in
      let posts st := count is_post (trace st) in
      (output_path_of category loc ∉ fs st ->
       posts st' = S (posts st)
       /\ pauses st'
          = pauses st
            + (if (S (processed_count st) <? total)%nat then 1 else 0)
       /\ (S (processed_count st) < total ->
           last (trace st') = Some (EvSleep API_DELAY)))
      /\ (output_path_of category loc ∈ fs st ->
          posts st' = posts st /\ pauses st' = pauses st))
  /\ (forall s,
         In (EvSleep s) (trace (final_state (main w scenes fs0))) ->
         s = 15%Z)
  /\ ((forall d, makedirs_ok w d = true) ->
      (forall p, In p (catalog_paths scenes) -> p ∉ fs0) ->
      NoDup (catalog_paths scenes) ->
      exists st,
        main w scenes fs0 = Finished st
        /\ count is_skip (trace st) = 0
        /\ count is_post (trace st) = count_locations scenes
        /\ count is_sleep (trace st) = count_locations scenes - 1).
Proof.
  split; [|split].
  - intros total category loc st. cbv zeta.
    destruct (step_events_counts w total category loc st) as (Hp & Hs & _).
    rewrite process_location_trace, !count_app, Hp, Hs. split.
    + intros Hnin. rewrite !bool_decide_eq_false_2 by exact Hnin.
      split; [lia|]. split; [reflexivity|]. intros Hlt.
      unfold step_events, sleep_events.
      rewrite bool_decide_eq_false_2 by exact Hnin.
      apply Nat.ltb_lt in Hlt. rewrite Hlt, !app_assoc. apply last_snoc.
    + intros Hin. rewrite !bool_decide_eq_true_2 by exact Hin. lia.
  - apply sleeps_fixed_main.
  - intros Hok Hfresh Hnd.
    destruct (pause_inv_main w scenes fs0 Hok Hfresh Hnd)
      as (st & E & _ & _ & Hp & Hpost & Hskip & Hsl).
    simpl in Hp. eexists. split; [exact E|].
    rewrite trace_emit, !count_app, Hpost, Hskip, Hsl.
    unfold count. simpl. repeat split; lia.
Qed.

End DriverFacts.

(* ================================================================= *)
(** ** The driver on a small catalog *)

Example demo_paths :
  catalog_paths demo_scenes
  = List.map (fun f => codes "appdata/map/osm/" ++ codes f)
      [ "Urban_Canyon/Urban_Canyon_Park_Avenue_Midtown_0.0000_0.0000.osm";
        "Urban_Canyon/Urban_Canyon_LaSalle_Street_0.0000_0.0000.osm";
        "Desert_Area/Desert_Area_Gobi_Desert_0.0000_0.0000.osm" ]%string.
Proof. vm_compute. reflexivity. Qed.

Example demo_first_run :
  (processed_count demo_first, success_count demo_first,
   failed_count demo_first) = (3, 2, 1)
  /\ count is_post (trace demo_first) = 3
  /\ count is_sleep (trace demo_first) = 2
  /\ count is_failure_report (trace demo_first) = 1
  /\ last (trace demo_first) = Some (EvSummary 3 2 1).
Proof. vm_compute. repeat split; reflexivity. Qed.

(** The second run fetches only the location that failed; as the driver
    asks whether to pause by the position in the catalog, the one request is
    followed by a pause although no request comes after it. *)
Example demo_second_run :
  (processed_count demo_second, success_count demo_second,
   failed_count demo_second) = (3, 2, 1)
  /\ count is_post (trace demo_second) = 1
  /\ count is_skip (trace demo_second) = 2
  /\ count is_sleep (trace demo_second) = 1.
Proof. vm_compute. repeat split; reflexivity. Qed.

Lemma demo_paths_NoDup : NoDup (catalog_paths demo_scenes).
Proof.
  rewrite demo_paths. repeat constructor; intros Hin;
    repeat (apply elem_of_cons in Hin as [Hin|Hin]; [discriminate Hin|]);
    inversion Hin.
Defined.

Lemma skip_existing_witness :
  let p := @output_path_of unit_platform (codes "Desert_Area")
             (tt, tt, codes "Gobi Desert") in
  written_to p (trace demo_first)
  /\ p ∈ fs demo_first
  /\ ~ posted_for p (trace demo_second)
  /\ ~ written_to p (trace demo_second).
Proof.
  cbv zeta.
  assert (Hw : written_to
                 (@output_path_of unit_platform (codes "Desert_Area")
                    (tt, tt, codes "Gobi Desert"))
                 (trace demo_first)).
  { exists (codes "<osm/>"). vm_compute.
    repeat (first [left; reflexivity | right]). }
  split; [exact Hw|].
  exact (proj2 (skip_existing demo_world demo_world demo_scenes ∅) _ Hw).
Defined.


Lemma inter_request_delay_witness :
  (forall d, makedirs_ok demo_world d = true)
  /\ (forall p, In p (catalog_paths demo_scenes) -> p ∉ (∅ : gset pystr))
  /\ NoDup (catalog_paths demo_scenes)
  /\ exists st,
      main demo_world demo_scenes ∅ = Finished st
      /\ count is_skip (trace st) = 0
      /\ count is_post (trace st) = count_locations demo_scenes
      /\ count is_sleep (trace st) = count_locations demo_scenes - 1.
Proof.
  split; [reflexivity|]. split; [intros p _; apply not_elem_of_empty|].
  split; [exact demo_paths_NoDup|].
  apply (proj2 (proj2 (inter_request_delay demo_world demo_scenes ∅))).
  - reflexivity.
  - intros p _. apply not_elem_of_empty.
  - exact demo_paths_NoDup.
Defined.

Lemma counters_invariant_witness :
  (forall d, makedirs_ok demo_world d = true)
  /\ exists st processed success failed,
      main demo_world demo_scenes ∅ = Finished st
      /\ last (trace st) = Some (EvSummary processed success failed)
      /\ processed = processed_count st
      /\ success = success_count st
      /\ failed = failed_count st
      /\ processed = count_locations demo_scenes
      /\ processed = success + failed.
Proof.
  split; [reflexivity|].
  exact (proj2 (proj2 (proj2 (proj2 (proj2
           (counters_invariant demo_world demo_scenes ∅)))))
           (fun _ => eq_refl)).
Defined.

(* ================================================================= *)
(** * Further properties *)

(** ** More about sanitize_filename *)

Section StripMore.

Context (cls : N -> bool).

Lemma lstrip_app_cls a s :
  Forall (fun c => cls c = true) a -> lstrip cls (a ++ s) = lstrip cls s.
Proof.
  induction 1 as [|c a Hc _ IH]; simpl; [reflexivity|]. now rewrite Hc.
Qed.

Lemma lstrip_all s : Forall (fun c => cls c = true) s -> lstrip cls s = [].
Proof.
  intros Hs. rewrite <- (app_nil_r s). now rewrite lstrip_app_cls.
Qed.

Lemma lstrip_app_nonempty s b :
  lstrip cls s <> [] -> lstrip cls (s ++ b) = lstrip cls s ++ b.
Proof.
  induction s as [|c t IH]; simpl; [congruence|].
  destruct (cls c); [exact IH|reflexivity].
Qed.

Lemma lstrip_empty_all s :
  lstrip cls s = [] -> Forall (fun c => cls c = true) s.
Proof.
  induction s as [|c t IH]; simpl; [constructor|].
  destruct (cls c) eqn:E; [|discriminate]. intros Ht. constructor; auto.
Qed.

Lemma rstrip_app_cls s b :
  Forall (fun c => cls c = true) b -> rstrip cls (s ++ b) = rstrip cls s.
Proof.
  intros Hb. unfold rstrip. rewrite rev_app_distr, lstrip_app_cls;
    [reflexivity|]. now apply Forall_rev.
Qed.

(** Characters of the stripped set around a string do not change what
    [strip] returns. *)
Lemma strip_pad a s b :
  Forall (fun c => cls c = true) a -> Forall (fun c => cls c = true) b ->
  strip cls (a ++ s ++ b) = strip cls s.
Proof.
  intros Ha Hb. unfold strip. rewrite lstrip_app_cls by exact Ha.
  destruct (lstrip cls s) as [|c r] eqn:E.
  - rewrite lstrip_all; [reflexivity|].
    apply Forall_app. split; [now apply lstrip_empty_all|exact Hb].
  - rewrite lstrip_app_nonempty by congruence. rewrite E.
    now apply rstrip_app_cls.
Qed.

Lemma strip_length s : length (strip cls s) <= length s.
Proof.
  destruct (strip_infix cls s) as (a & b & E). rewrite E at 2.
  rewrite !length_app. lia.
Qed.

Lemma emit_run_length min repl run :
  length repl <= min -> length (emit_run min repl run) <= length run.
Proof.
  intros Hr. unfold emit_run. destruct run as [|c r]; [reflexivity|].
  destruct (Nat.leb_spec min (length (c :: r))); lia.
Qed.

Lemma re_sub_runs_from_length min repl s :
  length repl <= min ->
  forall run,
    length (re_sub_runs_from cls min repl run s) <= length run + length s.
Proof.
  intros Hr. induction s as [|c t IH]; intros run; simpl.
  - pose proof (emit_run_length min repl run Hr). lia.
  - destruct (cls c).
    + specialize (IH (run ++ [c])). rewrite length_app in IH. simpl in IH. lia.
    + rewrite length_app. simpl. specialize (IH []). simpl in IH.
      pose proof (emit_run_length min repl run Hr). lia.
Qed.

Lemma re_sub_runs_length min repl s :
  length repl <= min -> length (re_sub_runs cls min repl s) <= length s.
Proof. intros Hr. apply (re_sub_runs_from_length min repl s Hr []). Qed.

Lemma re_sub_each_length s : length (re_sub_each cls [] s) <= length s.
Proof.
  unfold re_sub_each. induction s as [|c t IH]; simpl; [lia|].
  destruct (cls c); simpl; lia.
Qed.

End StripMore.

Lemma no_double_infix x (s l1 l2 : pystr) :
  no_double x s -> s <> l1 ++ x :: x :: l2.
Proof.
  intros H ->. apply no_double_app_r in H. simpl in H. tauto.
Qed.

Section SanitizeMore.

Variables uni_space uni_alnum : N -> bool.

(** X1.  The result holds no white space, slash, backslash or colon. *)
Theorem sanitize_filename_no_separator (s : pystr) :
  Forall (fun c => is_space uni_space c = false
                   /\ c <> Chr.slash /\ c <> Chr.backslash
                   /\ c <> Chr.colon)
    (sanitize_filename uni_space uni_alnum s).
Proof.
  assert (Hsep : Forall (fun c => is_separator uni_space c = false)
                   (sanitize_filename uni_space uni_alnum s)).
  { rewrite sanitize_filename_core.
    pose proof (sanitized_core_no_separator uni_space uni_alnum s) as HS.
    destruct (sanitized_core uni_space uni_alnum s) as [|a r];
      [repeat constructor|exact HS]. }
  eapply Forall_impl; [exact Hsep|]. intros c Hc.
  unfold is_separator in Hc.
  apply orb_false_iff in Hc as [Hc Hcolon].
  apply orb_false_iff in Hc as [Hc Hback].
  apply orb_false_iff in Hc as [Hspace Hslash].
  now apply N.eqb_neq in Hcolon, Hback, Hslash.
Qed.

(** X2.  The result holds neither two underscores nor two hyphens in a
    row. *)
Theorem sanitize_filename_no_double (s l1 l2 : pystr) :
  sanitize_filename uni_space uni_alnum s
  <> l1 ++ codes "__" ++ l2
  /\ sanitize_filename uni_space uni_alnum s
     <> l1 ++ codes "--" ++ l2.
Proof.
  rewrite sanitize_filename_core.
  destruct (sanitized_core_no_double uni_space uni_alnum s) as [HU HH].
  destruct (sanitized_core uni_space uni_alnum s) as [|a r].
  - assert (HU' : no_double Chr.underscore (codes "unnamed"))
      by (vm_compute; intuition discriminate).
    assert (HH' : no_double Chr.hyphen (codes "unnamed"))
      by (vm_compute; intuition discriminate).
    split; [exact (no_double_infix _ _ l1 l2 HU')
           |exact (no_double_infix _ _ l1 l2 HH')].
  - split; [exact (no_double_infix _ _ l1 l2 HU)
           |exact (no_double_infix _ _ l1 l2 HH)].
Qed.

Lemma in_ascii_set_clean c :
  in_ascii_set c = true ->
  is_kept uni_alnum c = true /\ is_separator uni_space c = false.
Proof.
  intros Hc.
  assert (Hlt : (c <? 128)%N = true).
  { unfold in_ascii_set, is_ascii_alnum in Hc. apply N.ltb_lt.
    repeat (apply orb_true_iff in Hc as [Hc|Hc]);
      try (apply andb_true_iff in Hc as [_ Hc]; apply N.leb_le in Hc; lia);
      apply N.eqb_eq in Hc; subst c; reflexivity. }
  unfold is_kept, is_word, is_alnum, is_separator, is_space.
  rewrite Hlt. split; [exact Hc|].
  unfold in_ascii_set, is_ascii_alnum in Hc. unfold is_ascii_space.
  repeat (apply orb_true_iff in Hc as [Hc|Hc]);
    try (apply andb_true_iff in Hc as [Hc1 Hc2];
         apply N.leb_le in Hc1, Hc2);
    try (apply N.eqb_eq in Hc; subst c; reflexivity);
    repeat (apply orb_false_iff; split);
    try (apply andb_false_iff);
    try (apply N.eqb_neq; unfold Chr.slash, Chr.backslash, Chr.colon; lia).
  all: try (left; apply N.leb_gt; lia).
  all: try (right; apply N.leb_gt; lia).
Qed.

Lemma clean_fixed (s : pystr) :
  s <> [] ->
  Forall (fun c => in_ascii_set c = true) s ->
  no_double Chr.underscore s -> no_double Chr.hyphen s ->
  (forall c, head s = Some c -> is_edge c = false) ->
  (forall c, last s = Some c -> is_edge c = false) ->
  sanitize_filename uni_space uni_alnum s = s.
Proof.
  intros Hne Hall HU HH Hhd Hlt. rewrite sanitize_filename_core.
  rewrite sanitized_core_fix; try assumption.
  - destruct s; [congruence|reflexivity].
  - eapply Forall_impl; [exact Hall|]. intros c Hc.
    now apply in_ascii_set_clean.
  - eapply Forall_impl; [exact Hall|]. intros c Hc.
    now apply in_ascii_set_clean.
Qed.

(** X3.  A non-empty string over [A-Za-z0-9_.-] with no doubled underscore
    or hyphen and no underscore or hyphen at either end is returned as it
    is. *)
Theorem sanitize_filename_clean (s : pystr) :
  s <> [] ->
  Forall (fun c => in_ascii_set c = true) s ->
  no_double Chr.underscore s -> no_double Chr.hyphen s ->
  (forall c, head s = Some c -> is_edge c = false) ->
  (forall c, last s = Some c -> is_edge c = false) ->
  sanitize_filename uni_space uni_alnum s = s.
Proof. exact (clean_fixed s). Qed.

(** X4.  White space around the name does not matter. *)
Theorem sanitize_filename_pad (pre s post : pystr) :
  Forall (fun c => is_space uni_space c = true) pre ->
  Forall (fun c => is_space uni_space c = true) post ->
  sanitize_filename uni_space uni_alnum (pre ++ s ++ post)
  = sanitize_filename uni_space uni_alnum s.
Proof.
  intros Hpre Hpost. unfold sanitize_filename.
  now rewrite (strip_pad (is_space uni_space) pre s post Hpre Hpost).
Qed.

(** X5.  Sanitizing never makes a name longer, except that the fallback
    has seven characters. *)
Theorem sanitize_filename_length (s : pystr) :
  length (sanitize_filename uni_space uni_alnum s) <= Nat.max (length s) 7.
Proof.
  rewrite sanitize_filename_core.
  assert (Hc : length (sanitized_core uni_space uni_alnum s) <= length s).
  { unfold sanitized_core.
    etransitivity; [apply strip_length|].
    etransitivity; [apply re_sub_runs_length; simpl; lia|].
    etransitivity; [apply re_sub_runs_length; simpl; lia|].
    etransitivity; [apply re_sub_each_length|].
    etransitivity; [apply re_sub_runs_length; simpl; lia|].
    apply strip_length. }
  destruct (sanitized_core uni_space uni_alnum s); simpl in *; lia.
Qed.

End SanitizeMore.

Lemma sanitize_filename_clean_witness :
  sanitize_filename latin1_space latin1_alnum (codes "Times_Square_NYC")
  = codes "Times_Square_NYC".
Proof.
  apply (sanitize_filename_clean latin1_space latin1_alnum).
  - discriminate.
  - repeat constructor.
  - vm_compute. intuition discriminate.
  - vm_compute. intuition discriminate.
  - intros c [= <-]. reflexivity.
  - intros c [= <-]. reflexivity.
Defined.

Lemma sanitize_filename_pad_witness :
  sanitize_filename latin1_space latin1_alnum
    (codes "  " ++ codes "Central Hong Kong!" ++ codes " ")
  = sanitize_filename latin1_space latin1_alnum (codes "Central Hong Kong!").
Proof.
  apply (sanitize_filename_pad latin1_space latin1_alnum); repeat constructor.
Defined.

(* ================================================================= *)
(** ** More about calculate_bounding_box *)

Section BoundingBoxMore.

Local Open Scope R_scope.

Lemma sin_lb_poly x :
  sin_lb x = x - x ^ 3 / 6 + x ^ 5 / 120 - x ^ 7 / 5040.
Proof.
  unfold sin_lb, sin_approx. cbn [sum_f_R0]. unfold sin_term.
  rewrite !INR_IZR_INZ.
  change (Z.of_nat (fact (2 * 0 + 1))) with 1%Z.
  change (Z.of_nat (fact (2 * 1 + 1))) with 6%Z.
  change (Z.of_nat (fact (2 * 2 + 1))) with 120%Z.
  change (Z.of_nat (fact (2 * 3 + 1))) with 5040%Z.
  simpl pow. field.
Qed.

Lemma sin_one_degree : 1 / 100 <= sin (PI / 180).
Proof.
  pose proof PI2_3_2. pose proof PI_4.
  destruct (SIN (PI / 180)) as [Hlb _]; [lra|lra|].
  rewrite sin_lb_poly in Hlb.
  set (x := PI / 180) in *.
  assert (1 / 60 <= x <= 1 / 45) by (unfold x; lra).
  assert (0 <= x ^ 5) by (apply pow_le; lra).
  assert (x ^ 3 <= (1 / 45) ^ 3) by (apply pow_incr; lra).
  assert (x ^ 7 <= (1 / 45) ^ 7) by (apply pow_incr; lra).
  lra.
Qed.

(** The cosine of a latitude at least one degree away from both poles. *)
Lemma cos_radians_away_from_pole lat_deg :
  -89 <= lat_deg <= 89 -> 1 / 100 <= cos (radians lat_deg).
Proof.
  intros Hlat. pose proof PI_RGT_0 as Hpi.
  assert (H89 : cos (radians 89) = sin (PI / 180)).
  { rewrite <- cos_shift. f_equal. unfold radians. field. }
  assert (Hpos : forall x, 0 <= x <= 89 -> 1 / 100 <= cos (radians x)).
  { intros x Hx. apply Rle_trans with (cos (radians 89)).
    - rewrite H89. apply sin_one_degree.
    - apply cos_decr_1; unfold radians; try nra. }
  destruct (Rle_dec 0 lat_deg) as [H0|H0]; [apply Hpos; lra|].
  replace (radians lat_deg) with (- radians (- lat_deg))
    by (unfold radians; ring).
  rewrite cos_neg. apply Hpos. lra.
Qed.

(** X6.  For a non-negative side the longitude extent is never smaller than
    the latitude extent. *)
Theorem longitude_extent_ge_latitude (lat_deg lon_deg size_km : R) :
  0 <= size_km ->
  let b := bounding_box lat_deg lon_deg size_km in
  max_lat b - min_lat b <= max_lon b - min_lon b.
Proof.
  intros Hs. cbv zeta. rewrite bounding_box_eq. simpl.
  assert (Hd : delta_lat_deg size_km
               <= fst (delta_lon_deg lat_deg lon_deg size_km)).
  { assert (Hmono : forall D, 0 < D <= 6371 ->
                      delta_lat_deg size_km <= degrees (size_km / 2 / D)).
    { intros D HD. unfold delta_lat_deg, degrees, earth_radius_km.
      pose proof PI_RGT_0 as Hpi.
      apply Rmult_le_compat_r;
        [apply Rlt_le, Rdiv_lt_0_compat; lra|].
      unfold Rdiv at 1 3. apply Rmult_le_compat_l; [lra|].
      apply Rinv_le_contravar; lra. }
    unfold delta_lon_deg, parallel_radius_km, earth_radius_km,
      pole_threshold_km.
    destruct (Rlt_dec _ _) as [Hlt|Hge]; simpl; apply Hmono.
    - pose proof cos_radians_1_pos. pose proof (COS_bound (radians 1)). lra.
    - pose proof (COS_bound (radians lat_deg)). lra. }
  lra.
Qed.

(** X7.  At least one degree away from both poles the fallback is not
    taken: the divisor is the radius of the parallel and nothing is
    printed. *)
Theorem no_fallback_away_from_pole (lat_deg lon_deg size_km : R) :
  -89 <= lat_deg <= 89 ->
  calculate_bounding_box lat_deg lon_deg size_km
  = (let d_lat := degrees ((size_km / 2) / 6371) in
     let d_lon := degrees ((size_km / 2) / (6371 * cos (radians lat_deg))) in
     (lat_deg - d_lat, lon_deg - d_lon, lat_deg + d_lat, lon_deg + d_lon),
     []).
Proof.
  intros Hlat. pose proof (cos_radians_away_from_pole lat_deg Hlat) as Hc.
  unfold calculate_bounding_box, delta_lon_deg, delta_lat_deg,
    parallel_radius_km, pole_threshold_km, earth_radius_km.
  destruct (Rlt_dec _ _) as [Hlt|Hge]; [lra|reflexivity].
Qed.

(** X8.  The box of the mirrored latitude is the mirror image of the box:
    the latitude bounds swap and change sign, the longitude bounds stay. *)
Theorem bounding_box_mirror (lat_deg lon_deg size_km : R) :
  let b := bounding_box lat_deg lon_deg size_km in
  bounding_box (- lat_deg) lon_deg size_km
  = (- max_lat b, min_lon b, - min_lat b, max_lon b).
Proof.
  cbv zeta. rewrite !bounding_box_eq. simpl.
  assert (E : fst (delta_lon_deg (- lat_deg) lon_deg size_km)
              = fst (delta_lon_deg lat_deg lon_deg size_km)).
  { unfold delta_lon_deg, parallel_radius_km.
    replace (radians (- lat_deg)) with (- radians lat_deg)
      by (unfold radians; ring).
    rewrite cos_neg. now destruct (Rlt_dec _ _). }
  rewrite E.
  replace (- lat_deg - delta_lat_deg size_km)
    with (- (lat_deg + delta_lat_deg size_km)) by ring.
  replace (- lat_deg + delta_lat_deg size_km)
    with (- (lat_deg - delta_lat_deg size_km)) by ring.
  reflexivity.
Qed.

(** X9.  The longitude bounds are not brought back into [-180, 180]: for a
    positive side a box centred on the antimeridian reaches beyond it. *)
Theorem longitude_not_wrapped (lat_deg size_km : R) :
  0 < size_km ->
  180 < max_lon (bounding_box lat_deg 180 size_km)
  /\ min_lon (bounding_box lat_deg (-180) size_km) < -180.
Proof.
  intros Hs. rewrite !bounding_box_eq. simpl.
  pose proof (delta_lon_deg_pos lat_deg 180 size_km Hs).
  pose proof (delta_lon_deg_pos lat_deg (-180) size_km Hs).
  split; lra.
Qed.

End BoundingBoxMore.

Lemma longitude_extent_ge_latitude_witness :
  (let b := bounding_box 60 10 2 in
   max_lat b - min_lat b <= max_lon b - min_lon b)%R.
Proof. apply (longitude_extent_ge_latitude 60 10 2). lra. Defined.

Lemma no_fallback_away_from_pole_witness :
  (calculate_bounding_box 60 10 2
   = (let d_lat := degrees ((2 / 2) / 6371) in
      let d_lon := degrees ((2 / 2) / (6371 * cos (radians 60))) in
      (60 - d_lat, 10 - d_lon, 60 + d_lat, 10 + d_lon),
      []))%R.
Proof. apply (no_fallback_away_from_pole 60 10 2). lra. Defined.

Lemma longitude_not_wrapped_witness :
  (180 < max_lon (bounding_box 0 180 2)
   /\ min_lon (bounding_box 0 (-180) 2) < -180)%R.
Proof. apply (longitude_not_wrapped 0 2). lra. Defined.

(* ================================================================= *)
(** ** More about the driver *)

Section DriverMore.

Context `{Platform}.

Implicit Types (st : state) (tr : list event) (p d : pystr) (w : world).

(** X10.  The layout of an output path: [os.path.join] never drops the
    base directory or the category directory, because a sanitized name does
    not start with a slash. *)
Theorem output_path_layout (category name : pystr) (lat lon : coord) :
  output_path_of category (lat, lon, name)
  = codes "appdata/map/osm/" ++ sanitize category ++ codes "/"
    ++ sanitize category ++ codes "_" ++ sanitize name ++ codes "_"
    ++ format_4f lat ++ codes "_" ++ format_4f lon ++ codes ".osm".
Proof. rewrite output_path_of_eq. reflexivity. Qed.

(** *** Accounting *)

Lemma download_events_account (o : outcome) (b : bbox) p :
  count is_post (download_events o b p) = 1
  /\ count is_skip (download_events o b p) = 0
  /\ count is_write (download_events o b p) = (if attempt_ok o then 1 else 0)
  /\ count is_failure_report (download_events o b p)
     = (if attempt_ok o then 0 else 1).
Proof.
  unfold download_events, attempt_ok.
  destruct o as [[status content| | |] wr]; simpl;
    try destruct (is_error_status status); destruct wr; simpl;
    repeat split; reflexivity.
Qed.

Lemma sleep_events_account total n :
  count is_post (sleep_events total n) = 0
  /\ count is_skip (sleep_events total n) = 0
  /\ count is_write (sleep_events total n) = 0
  /\ count is_failure_report (sleep_events total n) = 0
  /\ count is_summary (sleep_events total n) = 0.
Proof. unfold sleep_events. destruct (_ <? _)%nat; repeat split. Qed.

Lemma process_location_accounted w total category loc st :
  accounted st -> accounted (process_location w total category loc st).
Proof.
  intros (Hp & Hs & Hf & Hw). unfold accounted.
  destruct (decide (output_path_of category loc ∈ fs st)) as [Hin|Hin].
  - rewrite process_location_skip by exact Hin. simpl.
    rewrite !count_app. unfold count in *. simpl.
    repeat split; lia.
  - destruct (process_location_fetch w total category loc st Hin)
      as (Htr & Hpc & Hsc & Hfc & _).
    rewrite Htr, Hpc, Hsc, Hfc, !count_app.
    destruct (download_events_account
                (outcome_at w (S (processed_count st))) (box_of loc)
                (output_path_of category loc)) as (-> & -> & -> & ->).
    destruct (sleep_events_account total (S (processed_count st)))
      as (-> & -> & -> & -> & _).
    destruct (attempt_ok _); repeat split; lia.
Qed.

(** X11.  In the state any run ends in, finished or not, the counters
    account for the trace: [processed_count] is the number of POSTs plus the
    number of skips, [success_count] the number of skips plus the number of
    files written, [failed_count] the number of failure reports, and every
    POST ended either in a written file or in a failure report. *)
Theorem run_accounted w scenes fs0 :
  accounted (final_state (main w scenes fs0)).
Proof.
  apply main_inv.
  - repeat split.
  - intros d st st' Hst E. apply makedirs_Some in E as [_ ->].
    destruct Hst as (Hp & Hs & Hf & Hw). unfold accounted.
    rewrite trace_emit, !count_app. unfold count in *. simpl.
    repeat split; lia.
  - intros category loc st. apply process_location_accounted.
  - intros st (Hp & Hs & Hf & Hw). unfold accounted.
    rewrite trace_emit, !count_app. unfold count in *. simpl.
    repeat split; lia.
Qed.

(** X12.  A run never removes a path and never touches a path that exists
    when it starts: no POST is issued and no file is written for it. *)
Theorem existing_paths_untouched w scenes fs0 :
  let st := final_state (main w scenes fs0) in
  fs0 ⊆ fs st
  /\ forall p,
      p ∈ fs0 -> ~ posted_for p (trace st) /\ ~ written_to p (trace st).
Proof. exact (untouched_main w scenes fs0). Qed.

(** *** Pauses in an arbitrary run *)

Lemma process_categories_paths_any (I : list pystr -> state -> Prop) w total :
  (forall d rem st,
      I rem st -> I rem (emit (EvMakedirs d) (create d st))) ->
  (forall category loc rem st,
      I (output_path_of category loc :: rem) st ->
      I rem (process_location w total category loc st)) ->
  forall scenes st,
    I (catalog_paths scenes) st ->
    exists rem, I rem (final_state (process_categories w total scenes st)).
Proof.
  intros Hmk Hloc scenes.
  induction scenes as [|[category locations] rest IH]; intros st Hst; simpl.
  - now exists [].
  - unfold makedirs.
    destruct (makedirs_ok w (category_dir_of category));
      [|now exists (catalog_paths ((category, locations) :: rest))].
    apply IH.
    unfold catalog_paths in Hst. simpl in Hst. fold (catalog_paths rest) in Hst.
    apply (Hmk (category_dir_of category)) in Hst. revert Hst.
    generalize (emit (EvMakedirs (category_dir_of category))
                  (create (category_dir_of category) st)).
    induction locations as [|loc locations IHl]; intros st1 Hst1;
      [exact Hst1|].
    rewrite process_locations_cons. apply IHl. now apply Hloc.
Qed.

Lemma main_paths_any (I : list pystr -> state -> Prop) w scenes fs0 :
  I (catalog_paths scenes) (initial_state fs0) ->
  (forall d rem st,
      I rem st -> I rem (emit (EvMakedirs d) (create d st))) ->
  (forall category loc rem st,
      I (output_path_of category loc :: rem) st ->
      I rem (process_location w (count_locations scenes) category loc st)) ->
  (forall rem st,
      I rem st ->
      I rem (emit (EvSummary (processed_count st) (success_count st)
                     (failed_count st)) st)) ->
  exists rem, I rem (final_state (main w scenes fs0)).
Proof.
  intros H0 Hmk Hloc Hsum. unfold main, makedirs at 1.
  destruct (makedirs_ok w OUTPUT_BASE_DIR); [|eexists; exact H0].
  destruct (process_categories_paths_any I w (count_locations scenes)
              Hmk Hloc scenes _ (Hmk OUTPUT_BASE_DIR _ _ H0)) as [rem Hrem].
  exists rem.
  destruct (process_categories _ _ _ _) as [st|st]; simpl in *; auto.
Qed.

(** X13.  In every run the number of pauses is the number of POSTs or one
    less: each POST is followed by a pause, except one for the last location
    of the catalog. *)
Theorem pauses_bounds w scenes fs0 :
  let st := final_state (main w scenes fs0) in
  count is_sleep (trace st) <= count is_post (trace st)
  /\ count is_post (trace st) <= count is_sleep (trace st) + 1.
Proof.
  cbv zeta.
  destruct (main_paths_any (pauses_follow_posts (count_locations scenes))
              w scenes fs0) as (rem & _ & H1 & H2 & _); [..|now split].
  - split; [apply catalog_paths_length|].
    repeat split; unfold count; simpl; lia.
  - intros d rem st (Hp & H1 & H2 & H3). unfold pauses_follow_posts.
    rewrite trace_emit, !count_app. unfold count in *. simpl.
    repeat split; try lia. intros Hrem. specialize (H3 Hrem). lia.
  - intros category loc rem st (Hp & H1 & H2 & H3).
    unfold pauses_follow_posts.
    specialize (H3 ltac:(discriminate)).
    destruct (step_events_counts w (count_locations scenes) category loc st)
      as (Hcp & Hcs & _).
    rewrite process_location_trace, !count_app, process_location_processed,
      Hcp, Hcs.
    simpl in Hp. case_bool_decide.
    + repeat split; lia.
    + destruct (Nat.ltb_spec (S (processed_count st))
                  (count_locations scenes)).
      * repeat split; lia.
      * assert (rem = []) as ->
          by (destruct rem; [reflexivity|simpl in *; lia]).
        repeat split; try lia. congruence.
  - intros rem st (Hp & H1 & H2 & H3). unfold pauses_follow_posts.
    rewrite trace_emit, !count_app. unfold count in *. simpl.
    repeat split; try lia. intros Hrem. specialize (H3 Hrem). lia.
Qed.

(** *** How a run ends *)





(** *** One call of download_osm_data *)

(** X15.  [download_osm_data] returns [True] only when the response has no
    error status and its body went to the output path unchanged; otherwise
    it returns [False] after one POST and one failure report, with no write
    (a write that raised may have left the file created).  It never changes
    the counters. *)
Theorem download_osm_data_contract (o : outcome) (b : bbox) p st :
  let '(ok, st') := download_osm_data o b p st in
  (ok = true ->
   exists status content,
     posted o = Response status content
     /\ is_error_status status = false /\ written o = Written
     /\ trace st'
        = trace st ++ [EvPost b p; EvWrite p content; EvReport Rep_success]
     /\ fs st' = {[ p ]} ∪ fs st)
  /\ (ok = false ->
      exists r,
        r <> Rep_success
        /\ trace st' = trace st ++ [EvPost b p; EvReport r]
        /\ (fs st' = fs st
            \/ written o = Write_raises /\ fs st' = {[ p ]} ∪ fs st))
  /\ processed_count st' = processed_count st
  /\ success_count st' = success_count st
  /\ failed_count st' = failed_count st.
Proof.
  unfold download_osm_data.
  destruct o as [[status content| | |] wr]; simpl;
    try destruct (is_error_status status) eqn:E; destruct wr; simpl;
    rewrite <- ?app_assoc; simpl;
    (split; [intros Hok; try discriminate Hok
            |split; [intros Hok; try discriminate Hok|auto]]);
    try (exists status, content; auto);
    try (eexists; split; [|split; [reflexivity|auto]]; discriminate).
Qed.

(** X16.  An error status is reported with a hint to raise the delay
    exactly for 429, with a hint that the server is overloaded exactly for
    the 5xx codes, and with no hint for the other 4xx codes; nothing is
    written. *)
Theorem http_error_hints (status : Z) (content : list N) (wr : write_result)
    (b : bbox) p st :
  is_error_status status = true ->
  let '(ok, st') :=
    download_osm_data {| posted := Response status content; written := wr |}
      b p st in
  ok = false
  /\ fs st' = fs st
  /\ exists h,
      trace st'
      = trace st ++ [EvPost b p; EvReport (Rep_http_error status h)]
      /\ (h = Some Hint_increase_delay <-> status = 429%Z)
      /\ (h = Some Hint_server_overloaded <-> (500 <= status < 600)%Z)
      /\ (h = None <-> (400 <= status < 500)%Z /\ status <> 429%Z).
Proof.
  intros Herr. unfold download_osm_data. simpl. rewrite Herr. simpl.
  split; [reflexivity|]. split; [reflexivity|].
  exists (http_hint status). rewrite <- app_assoc. split; [reflexivity|].
  unfold is_error_status in Herr. apply andb_true_iff in Herr as [H1 H2].
  apply Z.leb_le in H1. apply Z.ltb_lt in H2. unfold http_hint.
  destruct (Z.eqb_spec status 429) as [->|Hne].
  - repeat split; try discriminate; try lia; auto.
  - destruct (Z.leb_spec 500 status).
    + repeat split; try discriminate; try lia; auto.
    + repeat split; try discriminate; try lia; auto.
Qed.

(** *** Paths of different categories *)

Lemma split_at_first (x : N) (a a' b b' : pystr) :
  ~ In x a -> ~ In x a' -> a ++ x :: b = a' ++ x :: b' -> a = a' /\ b = b'.
Proof.
  revert a'. induction a as [|c a IH]; intros [|c' a'] Ha Ha' E; simpl in *.
  - injection E as ->. auto.
  - injection E as <- _. tauto.
  - injection E as -> _. tauto.
  - injection E as -> E. destruct (IH a') as [-> ->]; auto.
Qed.

(** X17.  Categories with different sanitized names never share an output
    path. *)
Theorem categories_do_not_collide (category1 category2 : pystr)
    (loc1 loc2 : location) :
  sanitize category1 <> sanitize category2 ->
  output_path_of category1 loc1 <> output_path_of category2 loc2.
Proof.
  intros Hne E. apply Hne. rewrite !output_path_of_eq in E.
  apply app_inv_head, app_inv_head in E.
  destruct (sanitize_shape category1) as (_ & H1 & _).
  destruct (sanitize_shape category2) as (_ & H2 & _).
  now apply (split_at_first Chr.slash) in E.
Qed.

(** *** Directories before files *)

Lemma app_eq_split (e : event) tr new tr1 tr2 :
  tr ++ new = tr1 ++ e :: tr2 ->
  (exists t2, tr = tr1 ++ e :: t2)
  \/ (exists n1, tr1 = tr ++ n1 /\ new = n1 ++ e :: tr2).
Proof.
  revert tr1. induction tr as [|x tr IH]; intros tr1 E; simpl in *.
  - right. now exists tr1.
  - destruct tr1 as [|y tr1]; simpl in E.
    + injection E as -> E. left. now exists tr.
    + injection E as -> E. destruct (IH tr1 E) as [[t2 ->]|(n1 & -> & ->)].
      * left. now exists t2.
      * right. now exists n1.
Qed.

Lemma directories_first_app tr new :
  directories_first tr ->
  (forall p content,
      In (EvWrite p content) new ->
      In (EvMakedirs OUTPUT_BASE_DIR) tr
      /\ exists category loc,
          p = output_path_of category loc
          /\ In (EvMakedirs (category_dir_of category)) tr) ->
  directories_first (tr ++ new).
Proof.
  intros Htr Hnew tr1 p content tr2 E.
  apply app_eq_split in E as [[t2 ->]|(n1 & -> & ->)].
  - exact (Htr tr1 p content t2 eq_refl).
  - destruct (Hnew p content) as (Hb & category & loc & -> & Hd).
    { apply in_or_app. right. now left. }
    split; [apply in_or_app; now left|].
    exists category, loc. split; [reflexivity|]. apply in_or_app. now left.
Qed.

Lemma process_categories_inv2 (I : state -> Prop)
    (J : pystr -> state -> Prop) w total :
  (forall category st st',
      I st -> makedirs w (category_dir_of category) st = Some st' ->
      J category st') ->
  (forall category loc st,
      J category st -> J category (process_location w total category loc st)) ->
  (forall category st, J category st -> I st) ->
  forall scenes st,
    I st -> I (final_state (process_categories w total scenes st)).
Proof.
  intros Hmk Hloc Hend scenes.
  induction scenes as [|[category locations] rest IH]; intros st Hst;
    simpl; [exact Hst|].
  destruct (makedirs w (category_dir_of category) st) as [st1|] eqn:E;
    [|exact Hst].
  apply IH. apply (Hend category). apply Hmk in E; [|exact Hst]. clear Hst.
  revert st1 E. induction locations as [|loc locations IHl]; intros st1 Hst1;
    [exact Hst1|].
  rewrite process_locations_cons. apply IHl. now apply Hloc.
Qed.

(** X18.  In the trace of every run each write comes after the creation of
    the base directory and of the directory of the category the written
    path belongs to. *)
Theorem directories_before_writes w scenes fs0 :
  directories_first (trace (final_state (main w scenes fs0))).
Proof.
  assert (Hnil : directories_first []).
  { intros [|? ?] ? ? ? E; discriminate E. }
  unfold main, makedirs at 1.
  destruct (makedirs_ok w OUTPUT_BASE_DIR); [|exact Hnil].
  set (st0 := emit (EvMakedirs OUTPUT_BASE_DIR)
                (create OUTPUT_BASE_DIR (initial_state fs0))).
  pose (I := fun st => In (EvMakedirs OUTPUT_BASE_DIR) (trace st)
                       /\ directories_first (trace st)).
  pose (J := fun category st =>
               I st /\ In (EvMakedirs (category_dir_of category)) (trace st)).
  assert (Hfin : I (final_state
                      (process_categories w (count_locations scenes)
                         scenes st0))).
  { apply (process_categories_inv2 I J); unfold J, I.
    - intros category st st' [Hb Hd] E. apply makedirs_Some in E as [_ ->].
      rewrite trace_emit. split; [split|].
      + apply in_or_app. now left.
      + apply directories_first_app; [exact Hd|].
        intros p content [Hp|[]]. discriminate.
      + apply in_or_app. right. now left.
    - intros category loc st [[Hb Hd] Hc]. rewrite process_location_trace.
      split; [split|].
      + apply in_or_app. now left.
      + apply directories_first_app; [exact Hd|].
        intros p content Hp. split; [exact Hb|].
        exists category, loc. split; [|exact Hc].
        assert (Hw : written_to p
                       (step_events w (count_locations scenes) category loc
                          st)) by now exists content.
        now apply step_events_written in Hw.
      + apply in_or_app. now left.
    - intros category st [HI _]. exact HI.
    - split; [now left|].
      apply (directories_first_app []); [exact Hnil|].
      intros p content [Hp|[]]. discriminate. }
  unfold I in Hfin.
  destruct (process_categories _ _ _ _) as [st|st]; simpl in *.
  - apply directories_first_app; [apply Hfin|].
    intros p content [Hp|[]]. discriminate.
  - apply Hfin.
Qed.

End DriverMore.

Lemma http_error_hints_witness :
  let '(ok, st') :=
    @download_osm_data unit_platform
      {| posted := Response 429 (codes "rate limited"); written := Written |}
      tt (codes "a.osm") (initial_state ∅) in
  ok = false
  /\ fs st' = fs (@initial_state unit_platform ∅)
  /\ exists h,
      trace st'
      = trace (@initial_state unit_platform ∅)
        ++ [@EvPost unit_platform tt (codes "a.osm");
            EvReport (Rep_http_error 429 h)]
      /\ (h = Some Hint_increase_delay <-> 429%Z = 429%Z)
      /\ (h = Some Hint_server_overloaded <-> (500 <= 429 < 600)%Z)
      /\ (h = None <-> (400 <= 429 < 500)%Z /\ 429%Z <> 429%Z).
Proof.
  exact (@http_error_hints unit_platform 429 (codes "rate limited") Written
           tt (codes "a.osm") (initial_state ∅) eq_refl).
Defined.

Lemma categories_do_not_collide_witness :
  @output_path_of unit_platform (codes "Urban Canyon")
    (tt, tt, codes "Gobi Desert")
  <> @output_path_of unit_platform (codes "Desert_Area")
       (tt, tt, codes "Gobi Desert").
Proof.
  apply (@categories_do_not_collide unit_platform). vm_compute. discriminate.
Defined.

(* ================================================================= *)
(** ** Output paths determine their location *)

Section PathInjectivity.

Context `{Platform}.

Lemma split_at_last (x : N) (a a' b b' : pystr) :
  ~ In x b -> ~ In x b' -> a ++ x :: b = a' ++ x :: b' -> a = a' /\ b = b'.
Proof.
  intros Hb Hb' E. apply (f_equal (@rev N)) in E.
  rewrite !rev_app_distr in E. simpl in E. rewrite <- !app_assoc in E.
  simpl in E. apply split_at_first in E.
  - destruct E as [E1 E2]. split; apply rev_inj; assumption.
  - now rewrite <- in_rev.
  - now rewrite <- in_rev.
Qed.

Lemma output_path_parts (category1 category2 name1 name2 : pystr)
    (lat1 lon1 lat2 lon2 : coord) :
  (forall x, ~ In Chr.underscore (format_4f x)) ->
  output_path_of category1 (lat1, lon1, name1)
  = output_path_of category2 (lat2, lon2, name2) ->
  sanitize category1 = sanitize category2
  /\ sanitize name1 = sanitize name2
  /\ format_4f lat1 = format_4f lat2
  /\ format_4f lon1 = format_4f lon2.
Proof.
  intros Hfmt E. rewrite !output_path_of_eq in E.
  apply app_inv_head, app_inv_head in E.
  destruct (sanitize_shape category1) as (_ & H1 & _).
  destruct (sanitize_shape category2) as (_ & H2 & _).
  apply (split_at_first Chr.slash) in E as [Ec E]; [|assumption..].
  split; [exact Ec|]. unfold filename_of in E. rewrite Ec in E.
  apply app_inv_head, app_inv_head in E.
  rewrite !app_assoc in E. apply app_inv_tail in E.
  rewrite <- !app_assoc in E.
  change (sanitize name1 ++ codes "_" ++ format_4f lat1
          ++ Chr.underscore :: format_4f lon1
          = sanitize name2 ++ codes "_" ++ format_4f lat2
            ++ Chr.underscore :: format_4f lon2) in E.
  rewrite !app_assoc in E.
  apply (split_at_last Chr.underscore) in E as [E El]; [|apply Hfmt..].
  rewrite <- !app_assoc in E.
  change (sanitize name1 ++ Chr.underscore :: format_4f lat1
          = sanitize name2 ++ Chr.underscore :: format_4f lat2) in E.
  apply (split_at_last Chr.underscore) in E as [En Ea]; [|apply Hfmt..].
  auto.
Qed.

(** X19.  When the text of a formatted coordinate holds no underscore, as
    with [%.4f], two locations with the same output path have the same
    sanitized category, the same sanitized name and the same formatted
    coordinates. *)
Theorem output_path_injective (category1 category2 name1 name2 : pystr)
    (lat1 lon1 lat2 lon2 : coord) :
  (forall x, ~ In Chr.underscore (format_4f x)) ->
  output_path_of category1 (lat1, lon1, name1)
  = output_path_of category2 (lat2, lon2, name2) ->
  sanitize category1 = sanitize category2
  /\ sanitize name1 = sanitize name2
  /\ format_4f lat1 = format_4f lat2
  /\ format_4f lon1 = format_4f lon2.
Proof. apply output_path_parts. Qed.

Lemma catalog_paths_entries (scenes : catalog) :
  catalog_paths scenes
  = List.map (fun e => output_path_of (fst e) (snd e)) (entries scenes).
Proof.
  unfold catalog_paths, entries.
  induction scenes as [|[category locations] rest IH]; simpl; [reflexivity|].
  rewrite map_app, List.map_map. simpl. now rewrite IH.
Qed.

End PathInjectivity.

Lemma NoDup_map_key {A B K : Type} (g : A -> B) (key : A -> K) (l : list A) :
  NoDup (List.map key l) ->
  (forall x y, In x l -> In y l -> g x = g y -> key x = key y) ->
  NoDup (List.map g l).
Proof.
  induction l as [|a l IH]; simpl; intros Hk Hinj; [constructor|].
  apply NoDup_cons in Hk as [Ha Hk]. apply NoDup_cons. split.
  - intros Hin. apply Ha. apply list_elem_of_In in Hin.
    apply in_map_iff in Hin as (y & Ey & Hy).
    apply list_elem_of_In. apply in_map_iff. exists y. split; [|exact Hy].
    symmetry. apply Hinj; auto.
  - apply IH; [exact Hk|]. intros x y Hx Hy. apply Hinj; auto.
Qed.

Lemma pystr_eqb_eq (s t : pystr) : pystr_eqb s t = true <-> s = t.
Proof.
  revert t. induction s as [|c s IH]; intros [|d t]; simpl;
    try (split; [discriminate|discriminate]); [tauto|].
  rewrite andb_true_iff, N.eqb_eq, IH. split.
  - now intros [-> ->].
  - now intros [= -> ->].
Qed.

Lemma nodupb_NoDup (l : list (pystr * pystr)) : nodupb l = true -> NoDup l.
Proof.
  induction l as [|k l IH]; simpl; intros Hl; [constructor|].
  apply andb_true_iff in Hl as [Hk Hl]. apply NoDup_cons. split; [|auto].
  intros Hin. apply negb_true_iff in Hk.
  assert (Hex : existsb (key_eqb k) l = true); [|congruence].
  apply existsb_exists. exists k. split; [now apply list_elem_of_In|].
  unfold key_eqb. apply andb_true_iff. split; now apply pystr_eqb_eq.
Qed.

Lemma no_doubleb_sound (x : N) (s : pystr) :
  no_doubleb x s = true -> no_double x s.
Proof.
  induction s as [|c t IH]; simpl; [trivial|]. intros Hs.
  apply andb_true_iff in Hs as [Hc Ht]. split; [|auto].
  intros [-> Hh]. destruct t as [|d t]; [discriminate|].
  injection Hh as ->. now rewrite N.eqb_refl in Hc.
Qed.

Lemma is_clean_sound (uni_space uni_alnum : N -> bool) (s : pystr) :
  is_clean s = true -> sanitize_filename uni_space uni_alnum s = s.
Proof.
  unfold is_clean. destruct s as [|c s]; [discriminate|]. intros Hs.
  apply andb_true_iff in Hs as [Hs Hlast].
  apply andb_true_iff in Hs as [Hs Hhead].
  apply andb_true_iff in Hs as [Hs HH].
  apply andb_true_iff in Hs as [Hall HU].
  apply clean_fixed.
  - discriminate.
  - apply Forall_forall. intros d Hd. apply list_elem_of_In in Hd.
    rewrite forallb_forall in Hall. now apply Hall.
  - now apply no_doubleb_sound.
  - now apply no_doubleb_sound.
  - intros d [= <-]. now apply negb_true_iff.
  - intros d Hd. rewrite Hd in Hlast. now apply negb_true_iff.
Qed.

(* ================================================================= *)
(** ** The shipped catalog *)

Lemma main_consistent `{Platform} (w : world) (scenes : catalog)
    (fs0 : gset pystr) :
  counters_consistent (final_state (main w scenes fs0)).
Proof.
  apply main_inv; [reflexivity| | |now intros st Hst].
  - intros d st st' Hst E. apply makedirs_Some in E as [_ ->]. exact Hst.
  - intros category loc st. apply process_location_consistent.
Qed.

Lemma catalog_size :
  length Catalog.scenes = 25
  /\ Forall (fun cl => length (snd cl) = 10) Catalog.scenes
  /\ length (entries Catalog.scenes) = 250.
Proof.
  split; [reflexivity|]. split; [|reflexivity].
  apply Forall_forall. intros cl Hcl. apply list_elem_of_In in Hcl.
  assert (Hb : forallb (fun cl => (length (snd cl) =? 10)%nat) Catalog.scenes
               = true) by (vm_compute; reflexivity).
  rewrite forallb_forall in Hb. now apply Nat.eqb_eq, Hb.
Qed.

Lemma catalog_keys_nodup :
  nodupb (List.map entry_key (entries Catalog.scenes)) = true.
Proof. vm_compute. reflexivity. Qed.

Lemma catalog_clean :
  forallb (fun e => is_clean (fst e) && is_clean (snd (snd e)))
    (entries Catalog.scenes) = true.
Proof. vm_compute. reflexivity. Qed.

Lemma catalog_clean_entry (uni_space uni_alnum : N -> bool)
    (e : pystr * (PrimFloat.float * PrimFloat.float * pystr)) :
  In e (entries Catalog.scenes) ->
  sanitize_filename uni_space uni_alnum (fst e) = fst e
  /\ sanitize_filename uni_space uni_alnum (snd (snd e)) = snd (snd e).
Proof.
  intros He. pose proof catalog_clean as Hc.
  rewrite forallb_forall in Hc. apply Hc in He.
  apply andb_true_iff in He as [H1 H2]. split; now apply is_clean_sound.
Qed.

Lemma catalog_paths_NoDup (uni_space uni_alnum : N -> bool)
    (format : PrimFloat.float -> pystr) (box : Type)
    (box_of : PrimFloat.float -> PrimFloat.float -> PrimFloat.float -> box) :
  (forall x, ~ In Chr.underscore (format x)) ->
  NoDup (@catalog_paths
           (Catalog.float_platform uni_space uni_alnum format box box_of)
           Catalog.scenes).
Proof.
  intros Hfmt. rewrite catalog_paths_entries.
  apply (NoDup_map_key _ entry_key).
  - apply nodupb_NoDup, catalog_keys_nodup.
  - intros [c1 [[la1 lo1] n1]] [c2 [[la2 lo2] n2]] H1 H2 E.
    apply output_path_parts in E as (Ec & En & _); [|exact Hfmt].
    destruct (catalog_clean_entry uni_space uni_alnum _ H1) as [Hc1 Hn1].
    destruct (catalog_clean_entry uni_space uni_alnum _ H2) as [Hc2 Hn2].
    unfold sanitize in Ec, En. simpl in *. unfold entry_key. simpl.
    congruence.
Qed.

(** X20.  The catalog has 25 categories of 10 locations each, and every
    category name and every location name in it is already a sanitized
    name: [sanitize_filename] returns it unchanged, whatever the Unicode
    tables, so directories and files carry the catalog's names as they are
    written. *)
Theorem catalog_names_sanitized (uni_space uni_alnum : N -> bool) :
  length Catalog.scenes = 25
  /\ Forall (fun cl => length (snd cl) = 10) Catalog.scenes
  /\ Forall
       (fun e =>
          sanitize_filename uni_space uni_alnum (fst e) = fst e
          /\ sanitize_filename uni_space uni_alnum (snd (snd e))
             = snd (snd e))
       (entries Catalog.scenes).
Proof.
  destruct catalog_size as (H1 & H2 & _). split; [exact H1|].
  split; [exact H2|]. apply Forall_forall. intros e He.
  apply catalog_clean_entry. now apply list_elem_of_In.
Qed.

(** X21.  No two locations of the catalog have the same output path, as
    long as the text of a formatted coordinate holds no underscore. *)
Theorem catalog_paths_distinct (uni_space uni_alnum : N -> bool)
    (format : PrimFloat.float -> pystr) (box : Type)
    (box_of : PrimFloat.float -> PrimFloat.float -> PrimFloat.float -> box) :
  (forall x, ~ In Chr.underscore (format x)) ->
  NoDup (@catalog_paths
           (Catalog.float_platform uni_space uni_alnum format box box_of)
           Catalog.scenes).
Proof. apply catalog_paths_NoDup. Qed.

(** X22.  The driver on the shipped catalog, started where none of its
    output paths exists and with every directory creatable: whatever the
    downloads answer, the run finishes after 250 POSTs and 249 pauses, skips
    nothing, and its summary counts 250 locations, each a success or a
    failure. *)
Theorem catalog_fresh_run (uni_space uni_alnum : N -> bool)
    (format : PrimFloat.float -> pystr) (box : Type)
    (box_of : PrimFloat.float -> PrimFloat.float -> PrimFloat.float -> box)
    (w : world) (fs0 : gset pystr) :
  let P := Catalog.float_platform uni_space uni_alnum format box box_of in
  (forall x, ~ In Chr.underscore (format x)) ->
  (forall d, makedirs_ok w d = true) ->
  (forall p, In p (@catalog_paths P Catalog.scenes) -> p ∉ fs0) ->
  exists st : @state P,
    @main P w Catalog.scenes fs0 = Finished st
    /\ processed_count st = 250
    /\ success_count st + failed_count st = 250
    /\ count is_post (trace st) = 250
    /\ count is_skip (trace st) = 0
    /\ count is_sleep (trace st) = 249
    /\ last (trace st)
       = Some (EvSummary 250 (success_count st) (failed_count st)).
Proof.
  intros P Hfmt Hok Hfresh.
  pose proof (catalog_paths_NoDup uni_space uni_alnum format box box_of Hfmt)
    as Hnd.
  destruct (@pause_inv_main P w Catalog.scenes fs0 Hok Hfresh Hnd)
    as (st & E & _ & _ & Hp & Hpost & Hskip & Hsl).
  pose proof (@main_consistent P w Catalog.scenes fs0) as Hc.
  rewrite E in Hc. unfold counters_consistent in Hc. simpl in Hc.
  assert (Htotal : @count_locations P Catalog.scenes = 250)
    by (vm_compute; reflexivity).
  rewrite Htotal in Hp, Hsl. simpl in Hp. rewrite Nat.add_0_r in Hp.
  eexists. split; [exact E|].
  rewrite trace_emit, !count_app, Hpost, Hskip, Hsl, last_snoc. simpl.
  rewrite Hp in *. unfold count. simpl.
  repeat split; lia.
Qed.

(** X23.  Every location of the catalog has a latitude in [-89, 89], so at
    least one degree away from both poles, and a longitude in
    [-180, 180]. *)
Theorem catalog_coordinates_in_range :
  Forall (fun e => Catalog.in_range e = true) (entries Catalog.scenes).
Proof.
  apply Forall_forall. intros e He. apply list_elem_of_In in He.
  assert (Hb : forallb Catalog.in_range (entries Catalog.scenes) = true)
    by (vm_compute; reflexivity).
  rewrite forallb_forall in Hb. now apply Hb.
Qed.

Lemma output_path_injective_witness :
  let sanitize := sanitize_filename latin1_space latin1_alnum in
  sanitize (codes "Desert Area") = sanitize (codes "Desert_Area")
  /\ sanitize (codes "Gobi  Desert!") = sanitize (codes "Gobi_Desert")
  /\ codes "0.0000" = codes "0.0000"
  /\ codes "0.0000" = codes "0.0000".
Proof.
  apply (@output_path_injective unit_platform
           (codes "Desert Area") (codes "Desert_Area")
           (codes "Gobi  Desert!") (codes "Gobi_Desert") tt tt tt tt).
  - intros x Hin. vm_compute in Hin. intuition discriminate.
  - vm_compute. reflexivity.
Defined.

Lemma catalog_paths_distinct_witness :
  NoDup (@catalog_paths
           (Catalog.float_platform latin1_space latin1_alnum
              (fun _ => codes "0.0000") unit (fun _ _ _ => tt))
           Catalog.scenes).
Proof.
  apply (catalog_paths_distinct latin1_space latin1_alnum
           (fun _ => codes "0.0000") unit (fun _ _ _ => tt)).
  intros x Hin. vm_compute in Hin. intuition discriminate.
Defined.

Lemma catalog_fresh_run_witness :
  let P := Catalog.float_platform latin1_space latin1_alnum
             (fun _ => codes "0.0000") unit (fun _ _ _ => tt) in
  exists st : @state P,
    @main P demo_world Catalog.scenes ∅ = Finished st
    /\ processed_count st = 250
    /\ success_count st + failed_count st = 250
    /\ count is_post (trace st) = 250
    /\ count is_skip (trace st) = 0
    /\ count is_sleep (trace st) = 249
    /\ last (trace st)
       = Some (EvSummary 250 (success_count st) (failed_count st)).
Proof.
  apply (catalog_fresh_run latin1_space latin1_alnum
           (fun _ => codes "0.0000") unit (fun _ _ _ => tt) demo_world ∅).
  - intros x Hin. vm_compute in Hin. intuition discriminate.
  - reflexivity.
  - intros p _. apply not_elem_of_empty.
Defined.

(* ================================================================= *)
(** ** Order of processing *)

Section Order.

Context `{Platform}.

Implicit Types (st : state) (tr : list event) (p d : pystr) (w : world).

Lemma step_events_written_posted w total category loc st q :
  written_to q (step_events w total category loc st) ->
  posted_for q (step_events w total category loc st).
Proof.
  intros Hq. apply step_events_written in Hq as (-> & Hnin & _).
  unfold step_events. rewrite bool_decide_eq_false_2 by exact Hnin.
  exists (box_of loc). apply in_or_app. left. now left.
Qed.

Lemma in_order_emit scenes rem st (e : event) :
  is_post e = false -> is_skip e = false -> is_write e = false ->
  in_order scenes rem st -> in_order scenes rem (emit e st).
Proof.
  intros Hp Hs Hw (Hr & Hc & Hwp & Hpr). unfold in_order.
  rewrite trace_emit, reached_app.
  assert (Hnil : reached [e] = [])
    by (destruct e; try reflexivity; discriminate).
  rewrite Hnil, app_nil_r. split; [exact Hr|]. split; [exact Hc|]. split.
  - intros p Hq. apply posted_for_app. left. apply Hwp.
    apply written_to_app in Hq as [Hq|[c [Hq|[]]]]; [exact Hq|].
    subst e. discriminate.
  - intros p Hq. apply Hpr.
    apply posted_for_app in Hq as [Hq|[b [Hq|[]]]]; [exact Hq|].
    subst e. discriminate.
Qed.

(** X24.  In every run, finished or not, the locations reached are the
    first locations of the catalog in catalog order, [processed_count] is
    their number, and a file is only ever written after a POST for it, for
    an output path of the catalog. *)
Theorem processed_in_order w scenes fs0 :
  let st := final_state (main w scenes fs0) in
  (exists rem, reached (trace st) ++ rem = catalog_paths scenes)
  /\ processed_count st = length (reached (trace st))
  /\ (forall p, written_to p (trace st) -> posted_for p (trace st))
  /\ (forall p, posted_for p (trace st) -> In p (catalog_paths scenes)).
Proof.
  cbv zeta.
  destruct (main_paths_any (in_order scenes) w scenes fs0)
    as (rem & Hr & Hc & Hwp & Hpr).
  - repeat split; [intros p [c []]|intros p [b []]].
  - intros d rem st Hst. now apply in_order_emit.
  - intros category loc rem st (Hr & Hc & Hwp & Hpr). unfold in_order.
    rewrite process_location_trace, reached_app, step_events_reached,
      process_location_processed, length_app, <- app_assoc.
    split; [exact Hr|]. split; [simpl; lia|]. split.
    + intros p Hq. apply posted_for_app.
      apply written_to_app in Hq as [Hq|Hq]; [left; auto|right].
      now apply step_events_written_posted.
    + intros p Hq. apply in_or_app.
      apply posted_for_app in Hq as [Hq|Hq]; [left; auto|right].
      apply step_events_posted in Hq as [-> _]. now left.
  - intros rem st Hst. now apply in_order_emit.
  - split; [now exists rem|]. split; [exact Hc|]. split; [exact Hwp|].
    intros p Hp. rewrite <- Hr. apply in_or_app. left. now apply Hpr.
Qed.

End Order.

(* ================================================================= *)
(** ** Names made of periods *)

Lemma no_double_absent (x : N) (s : pystr) :
  Forall (fun c => c <> x) s -> no_double x s.
Proof.
  induction 1 as [|c t Hc _ IH]; simpl; [trivial|]. split; [tauto|exact IH].
Qed.

Lemma last_replicate_S (n : nat) (c : N) :
  last (replicate (S n) c) = Some c.
Proof.
  induction n as [|n IH]; [reflexivity|].
  change (replicate (S (S n)) c) with (c :: replicate (S n) c).
  rewrite last_cons. now rewrite IH.
Qed.

(** X25.  A name made only of periods comes back unchanged: ["."] and
    [".."] are possible results of [sanitize_filename]. *)
Theorem sanitize_filename_periods (uni_space uni_alnum : N -> bool) (n : nat) :
  sanitize_filename uni_space uni_alnum (replicate (S n) Chr.period)
  = replicate (S n) Chr.period.
Proof.
  assert (Hall : Forall (fun c => c = Chr.period)
                   (replicate (S n) Chr.period)).
  { apply Forall_forall. intros c Hc. now apply elem_of_replicate in Hc. }
  apply clean_fixed.
  - discriminate.
  - eapply Forall_impl; [exact Hall|]. now intros c ->.
  - apply no_double_absent. eapply Forall_impl; [exact Hall|].
    now intros c ->.
  - apply no_double_absent. eapply Forall_impl; [exact Hall|].
    now intros c ->.
  - intros c [= <-]. reflexivity.
  - intros c Hc. rewrite last_replicate_S in Hc. now injection Hc as <-.
Qed.

(* ================================================================= *)
(** ** The longitude extent as the latitude grows *)

Section Convergence.

Local Open Scope R_scope.

Lemma delta_lon_deg_normal (lat_deg lon_deg size_km : R) :
  -89 <= lat_deg <= 89 ->
  fst (delta_lon_deg lat_deg lon_deg size_km)
  = degrees ((size_km / 2) / (6371 * cos (radians lat_deg))).
Proof.
  intros Hlat. pose proof (cos_radians_away_from_pole lat_deg Hlat) as Hc.
  unfold delta_lon_deg, parallel_radius_km, pole_threshold_km,
    earth_radius_km.
  destruct (Rlt_dec _ _) as [Hlt|Hge]; [lra|reflexivity].
Qed.

Lemma delta_lon_deg_pole (lat_deg lon_deg size_km : R) :
  cos (radians lat_deg) = 0 ->
  fst (delta_lon_deg lat_deg lon_deg size_km)
  = degrees ((size_km / 2) / (6371 * cos (radians 1))).
Proof.
  intros Hc.
  unfold delta_lon_deg, parallel_radius_km, pole_threshold_km,
    earth_radius_km.
  rewrite Hc. destruct (Rlt_dec _ _) as [Hlt|Hge]; [reflexivity|lra].
Qed.

(** X26.  Between the equator and latitude 89 the longitude extent does not
    shrink as the latitude grows (for a non-negative side). *)
Theorem longitude_extent_grows (lat1 lat2 lon_deg size_km : R) :
  0 <= size_km -> 0 <= lat1 <= lat2 -> lat2 <= 89 ->
  let b1 := bounding_box lat1 lon_deg size_km in
  let b2 := bounding_box lat2 lon_deg size_km in
  max_lon b1 - min_lon b1 <= max_lon b2 - min_lon b2.
Proof.
  intros Hs H12 H89. cbv zeta. rewrite !bounding_box_eq. simpl.
  rewrite !delta_lon_deg_normal by lra.
  pose proof (cos_radians_away_from_pole lat1 ltac:(lra)) as Hc1.
  pose proof (cos_radians_away_from_pole lat2 ltac:(lra)) as Hc2.
  pose proof PI_RGT_0 as Hpi.
  assert (Hcos : cos (radians lat2) <= cos (radians lat1)).
  { apply cos_decr_1; unfold radians; nra. }
  assert (Hd : degrees (size_km / 2 / (6371 * cos (radians lat1)))
               <= degrees (size_km / 2 / (6371 * cos (radians lat2)))).
  { unfold degrees. apply Rmult_le_compat_r;
      [apply Rlt_le, Rdiv_lt_0_compat; lra|].
    unfold Rdiv at 1 3. apply Rmult_le_compat_l; [lra|].
    apply Rinv_le_contravar; nra. }
  lra.
Qed.

(** X27.  At the poles the fallback gives the box the longitude bounds of
    the box at latitude 1. *)
Theorem pole_box_as_at_one_degree (lon_deg size_km : R) :
  let b := bounding_box 1 lon_deg size_km in
  min_lon (bounding_box 90 lon_deg size_km) = min_lon b
  /\ max_lon (bounding_box 90 lon_deg size_km) = max_lon b
  /\ min_lon (bounding_box (-90) lon_deg size_km) = min_lon b
  /\ max_lon (bounding_box (-90) lon_deg size_km) = max_lon b.
Proof.
  cbv zeta. rewrite !bounding_box_eq. simpl.
  rewrite (delta_lon_deg_normal 1) by lra.
  assert (H90 : cos (radians 90) = 0).
  { replace (radians 90) with (PI / 2)
      by (unfold radians; field; apply PI_neq0).
    apply cos_PI2. }
  assert (Hm90 : cos (radians (-90)) = 0).
  { replace (radians (-90)) with (- radians 90) by (unfold radians; ring).
    now rewrite cos_neg. }
  rewrite (delta_lon_deg_pole 90 _ _ H90), (delta_lon_deg_pole (-90) _ _ Hm90).
  auto.
Qed.

End Convergence.

Lemma longitude_extent_grows_witness :
  (let b1 := bounding_box 0 10 2 in
   let b2 := bounding_box 60 10 2 in
   max_lon b1 - min_lon b1 <= max_lon b2 - min_lon b2)%R.
Proof. apply (longitude_extent_grows 0 60 10 2); lra. Defined.

(* ================================================================= *)
(** ** A run that cannot create a category directory *)

(** The first category is processed, then the run stops without summary. *)
Example demo_crashed_run :
  let st := final_state (main demo_world_no_desert demo_scenes ∅) in
  (processed_count st, success_count st, failed_count st) = (2, 1, 1)
  /\ count is_post (trace st) = 2
  /\ count is_summary (trace st) = 0.
Proof. vm_compute. repeat split; reflexivity. Qed.

